(** * Broadcast coalescing for pub/sub: the [Room] batch of the C++ source

    A shallow embedding of [struct Room] (its [publish], [addSubscriber] and
    [broadcast] members) and of the two libuv hooks registered in [main]
    (the prepare and the check callback), followed by the properties of the
    coalescing window proved about them. *)

From Stdlib Require Import ZArith List Bool Lia Permutation Sorted.
From Stdlib Require Import Strings.Byte Strings.String.
Import ListNotations.
Local Open Scope Z_scope.

(** ** Machine integers

    [int] is a 32-bit two's complement integer, [size_t] a 64-bit unsigned
    one.  Values are kept in [Z]; every conversion and every [int] operation
    of the source is followed by its wrap-around. *)

Definition INT_MAX : Z := 2 ^ 31 - 1.
Definition INT_MIN : Z := - 2 ^ 31.

(** Conversion to [int] (also the result of an [int] operation). *)
Definition to_int (z : Z) : Z := (z + 2 ^ 31) mod 2 ^ 32 - 2 ^ 31.

(** Conversion to [size_t]. *)
Definition to_size_t (z : Z) : Z := z mod 2 ^ 64.

(** [std::string::npos], the default count of [substr]. *)
Definition npos : Z := 2 ^ 64 - 1.

(** ** Faults

    [OutOfBounds] is an access through [operator[]] past the end of a
    vector; [OutOfRange] is the [std::out_of_range] exception of
    [std::string::substr]. *)

Inductive fault : Type :=
| OutOfBounds
| OutOfRange.

Inductive result (A : Type) : Type :=
| Ok (a : A)
| Fail (f : fault).

Arguments Ok {A} a.
Arguments Fail {A} f.

Definition bind {A B : Type} (m : result A) (k : A -> result B) : result B :=
  match m with
  | Ok a => k a
  | Fail f => Fail f
  end.

Notation "x <- m ;; k" := (bind m (fun x => k))
  (at level 61, m at next level, right associativity).

(** ** Strings and vectors *)

Definition bytes := list byte.

Definition size {A : Type} (l : list A) : Z := Z.of_nat (List.length l).

(** [s.substr(pos, n)]: throws when [pos > s.size()], otherwise the
    [min(n, s.size() - pos)] characters from [pos] on.  Both arguments are
    [size_t] values. *)
Definition substr (s : bytes) (pos n : Z) : result bytes :=
  if size s <? pos then Fail OutOfRange
  else Ok (firstn (Z.to_nat (Z.min n (size s - pos))) (skipn (Z.to_nat pos) s)).

(** [v[i]] on a vector. *)
Definition at_index {A : Type} (v : list A) (i : nat) : result A :=
  match nth_error v i with
  | Some a => Ok a
  | None => Fail OutOfBounds
  end.

(** ** The room *)

(** A socket is identified by its poll handle; [operator<] and [==] on
    sockets compare the handles. *)
Definition socket := Z.

Module Gap.
(** A gap in the shared message: [struct Gap { int start; int length; }]. *)
Record t : Type := make { start : Z; length : Z }.
End Gap.

(** [std::map<WebSocket, std::vector<Gap>>]: iterated in increasing key
    order, so it is kept as an association list sorted by key. *)
Definition senders := list (socket * list Gap.t).

Record Room : Type := mkRoom {
  uniqueSenders : senders;
  sharedMessage : bytes;
  sockets : list socket;
  gotPubsThisIteration : bool;
  batched : Z
}.

Definition defaultRoom : Room :=
  {| uniqueSenders := []; sharedMessage := []; sockets := [];
     gotPubsThisIteration := false; batched := 0 |}.

(** What the room asks of the transport and of the loop. *)
Inductive action : Type :=
| PrepareMessage (payload : bytes)
| Send (to : socket) (payload : bytes)
| SendPrepared (to : socket) (payload : bytes)
| FinalizeMessage
| TimerStart (ms : Z).

(** ** [Room::publish] *)

(** [uniqueSenders[sender].push_back(g)]: [operator[]] creates the entry with
    an empty vector when the key is absent. *)
Fixpoint push_gap (sender : socket) (g : Gap.t) (m : senders) : senders :=
  match m with
  | [] => [(sender, [] ++ [g])]
  | (k, v) :: m' =>
      if sender <? k then (sender, [] ++ [g]) :: m
      else if sender =? k then (k, v ++ [g]) :: m'
      else (k, v) :: push_gap sender g m'
  end.

Definition publish (sender : socket) (message : bytes) (r : Room) : Room :=
  let start := to_int (size (sharedMessage r)) in
  {| sharedMessage := sharedMessage r ++ message;
     uniqueSenders :=
       push_gap sender (Gap.make start (to_int (size message))) (uniqueSenders r);
     sockets := sockets r;
     gotPubsThisIteration := true;
     batched := to_int (batched r + 1) |}.

(** ** [Room::addSubscriber] *)

Fixpoint insert (x : socket) (l : list socket) : list socket :=
  match l with
  | [] => [x]
  | y :: l' => if x <=? y then x :: l else y :: insert x l'
  end.

(** [std::sort] with [a < b]: the sorted arrangement of the vector. *)
Definition sort (l : list socket) : list socket := fold_right insert [] l.

Definition addSubscriber (ws : socket) (r : Room) : Room :=
  {| sockets := sort (sockets r ++ [ws]);
     uniqueSenders := uniqueSenders r;
     sharedMessage := sharedMessage r;
     gotPubsThisIteration := gotPubsThisIteration r;
     batched := batched r |}.

(** ** [Room::broadcast] *)

(** The inner loop over [j = 1 .. size-1] of a sender's gaps, followed by the
    closing [substr(lastStop)].  [rest] holds the gaps not yet visited. *)
Fixpoint gap_loop (shared : bytes) (rest : list Gap.t) (lastStop : Z)
    (msg : bytes) : result bytes :=
  match rest with
  | [] =>
      seg <- substr shared (to_size_t lastStop) npos ;;
      Ok (msg ++ seg)
  | g :: rest' =>
      seg <- substr shared (to_size_t lastStop)
               (to_size_t (to_int (Gap.start g - lastStop))) ;;
      gap_loop shared rest' (to_int (Gap.start g + Gap.length g)) (msg ++ seg)
  end.

(** The body of the first loop: the message of one unique sender, the shared
    message without that sender's gaps.  The first gap is read with
    [second[0]] before any test on the vector's size. *)
Definition reconstruct (shared : bytes) (gaps : list Gap.t) : result bytes :=
  g0 <- at_index gaps 0 ;;
  seg <- substr shared 0 (to_size_t (Gap.start g0)) ;;
  gap_loop shared (tl gaps) (to_int (Gap.start g0 + Gap.length g0)) seg.

(** The first loop: one message per unique sender, in key order. *)
Fixpoint uniqueMessages (shared : bytes) (m : senders)
    : result (list (socket * bytes)) :=
  match m with
  | [] => Ok []
  | (k, gaps) :: m' =>
      msg <- reconstruct shared gaps ;;
      rest <- uniqueMessages shared m' ;;
      Ok ((k, msg) :: rest)
  end.

(** The second loop: the walk over the sockets with the cursor [j] into the
    unique messages. *)
Fixpoint send_loop (prepared : bytes) (um : list (socket * bytes)) (j : nat)
    (socks : list socket) : list action :=
  match socks with
  | [] => []
  | s :: socks' =>
      match nth_error um j with
      | Some (h, msg) =>
          if h =? s then
            (if size msg =? 0 then [] else [Send s msg])
              ++ send_loop prepared um (S j) socks'
          else SendPrepared s prepared :: send_loop prepared um j socks'
      | None => SendPrepared s prepared :: send_loop prepared um j socks'
      end
  end.

Definition broadcast (r : Room) : result (Room * list action) :=
  um <- uniqueMessages (sharedMessage r) (uniqueSenders r) ;;
  let preparedMessage := sharedMessage r in
  Ok ({| batched := 0;
         uniqueSenders := [];
         sharedMessage := [];
         sockets := sockets r;
         gotPubsThisIteration := gotPubsThisIteration r |},
      PrepareMessage preparedMessage
        :: send_loop preparedMessage um 0 (sockets r) ++ [FinalizeMessage]).

(** ** The loop hooks of [main] *)

(** The prepare callback, run before the loop blocks. *)
Definition prepare_cb (r : Room) : Room * list action :=
  if batched r =? 0 then (r, [])
  else ({| gotPubsThisIteration := false;
           uniqueSenders := uniqueSenders r;
           sharedMessage := sharedMessage r;
           sockets := sockets r;
           batched := batched r |},
        [TimerStart 1]).

(** The check callback, run after the ready polls were handled. *)
Definition check_cb (r : Room) : result (Room * list action) :=
  if negb (batched r =? 0) && negb (gotPubsThisIteration r)
  then broadcast r
  else Ok (r, []).

(** ** Calls within one window *)

Inductive call : Type :=
| Subscribe (ws : socket)
| Publish (sender : socket) (message : bytes).

Definition run_call (r : Room) (c : call) : Room :=
  match c with
  | Subscribe ws => addSubscriber ws r
  | Publish sender message => publish sender message r
  end.

Definition run (cs : list call) (r : Room) : Room := fold_left run_call cs r.

(** A room between two windows: nothing batched. *)
Definition window_start (r : Room) : Prop :=
  sharedMessage r = [] /\ uniqueSenders r = [].

(** ** What a window published (stated on the calls, not on the room) *)

(** The payloads of the window, concatenated in publish order. *)
Fixpoint payloads (cs : list call) : bytes :=
  match cs with
  | [] => []
  | Subscribe _ :: cs' => payloads cs'
  | Publish _ message :: cs' => message ++ payloads cs'
  end.

(** The payloads published by anyone but [s], in publish order. *)
Fixpoint others (s : socket) (cs : list call) : bytes :=
  match cs with
  | [] => []
  | Subscribe _ :: cs' => others s cs'
  | Publish k message :: cs' =>
      if k =? s then others s cs' else message ++ others s cs'
  end.

(** The senders of the window. *)
Fixpoint publishers (cs : list call) : list socket :=
  match cs with
  | [] => []
  | Subscribe _ :: cs' => publishers cs'
  | Publish k _ :: cs' => k :: publishers cs'
  end.

(** The ranges of the payloads of [s] within the concatenation, when the
    window's first byte has offset [off]. *)
Fixpoint recorded (s : socket) (cs : list call) (off : Z) : list Gap.t :=
  match cs with
  | [] => []
  | Subscribe _ :: cs' => recorded s cs' off
  | Publish k message :: cs' =>
      if k =? s
      then Gap.make off (size message) :: recorded s cs' (off + size message)
      else recorded s cs' (off + size message)
  end.

(** ** Ranges removed from a buffer *)

Definition gap_end (g : Gap.t) : Z := Gap.start g + Gap.length g.

(** Position [j] lies in one of the ranges. *)
Definition covered (j : Z) (R : list Gap.t) : bool :=
  existsb (fun g => (Gap.start g <=? j) && (j <? gap_end g)) R.

(** The bytes of [s], whose first byte has position [i], that no range
    covers. *)
Fixpoint keep_from (i : Z) (R : list Gap.t) (s : bytes) : bytes :=
  match s with
  | [] => []
  | b :: s' =>
      if covered i R then keep_from (i + 1) R s' else b :: keep_from (i + 1) R s'
  end.

(** The buffer with every range removed. *)
Definition remove_ranges (buffer : bytes) (R : list Gap.t) : bytes :=
  keep_from 0 R buffer.

(** The ranges cover the whole buffer. *)
Definition covers_all (buffer : bytes) (R : list Gap.t) : Prop :=
  forall j, 0 <= j < size buffer -> covered j R = true.

(** The bytes at positions [[a, b)]. *)
Definition slice (buffer : bytes) (a b : Z) : bytes :=
  firstn (Z.to_nat (b - a)) (skipn (Z.to_nat a) buffer).

(** The segments after range [prev]: up to the next range, and so on, the
    last one running to the end of the buffer. *)
Fixpoint between (buffer : bytes) (prev : Gap.t) (R : list Gap.t) : bytes :=
  match R with
  | [] => slice buffer (gap_end prev) (size buffer)
  | g :: R' => slice buffer (gap_end prev) (Gap.start g) ++ between buffer g R'
  end.

(** The complement of the ranges, segment by segment:
    [[0, R0.start)], then [[Ri.start + Ri.length, Ri+1.start)] for each
    consecutive pair, then [[last.start + last.length, len)]. *)
Definition segments (buffer : bytes) (R : list Gap.t) : bytes :=
  match R with
  | [] => buffer
  | g :: R' => slice buffer 0 (Gap.start g) ++ between buffer g R'
  end.

(** Ranges in increasing order from [lo] on, none overlapping the next, all
    of them within [[lo, hi]]. *)
Fixpoint ordered_from (lo : Z) (R : list Gap.t) (hi : Z) : Prop :=
  match R with
  | [] => lo <= hi
  | g :: R' =>
      lo <= Gap.start g /\ 0 <= Gap.length g /\ ordered_from (gap_end g) R' hi
  end.

(** ** Reading the dispatch *)

(** The socket an action is sent to. *)
Definition target (a : action) : option socket :=
  match a with
  | Send to _ => Some to
  | SendPrepared to _ => Some to
  | _ => None
  end.

Definition sent_to (s : socket) (a : action) : bool :=
  match target a with
  | Some to => to =? s
  | None => false
  end.

(** The sends of a dispatch that go to [s], in order. *)
Definition sends_to (s : socket) (evs : list action) : list action :=
  filter (sent_to s) evs.

(** The bytes an action puts on the wire. *)
Definition payload_of (a : action) : bytes :=
  match a with
  | Send _ p => p
  | SendPrepared _ p => p
  | PrepareMessage p => p
  | _ => []
  end.

(** The entry of a sender in the index. *)
Fixpoint find_sender (s : socket) (m : senders) : option (list Gap.t) :=
  match m with
  | [] => None
  | (k, v) :: m' => if k =? s then Some v else find_sender s m'
  end.

(** What a subscriber listed once is due: the prepared message when it has
    no entry in the index, its own message otherwise, and nothing when that
    message is empty. *)
Definition due (r : Room) (s : socket) : list action :=
  match find_sender s (uniqueSenders r) with
  | None => [SendPrepared s (sharedMessage r)]
  | Some R =>
      let msg := remove_ranges (sharedMessage r) R in
      if size msg =? 0 then [] else [Send s msg]
  end.

(** The second loop, read on the unique messages still ahead of the cursor. *)
Fixpoint walk (prepared : bytes) (ahead : list (socket * bytes))
    (socks : list socket) : list action :=
  match socks with
  | [] => []
  | s :: socks' =>
      match ahead with
      | (h, msg) :: ahead' =>
          if h =? s then
            (if size msg =? 0 then [] else [Send s msg])
              ++ walk prepared ahead' socks'
          else SendPrepared s prepared :: walk prepared ahead socks'
      | [] => SendPrepared s prepared :: walk prepared ahead socks'
      end
  end.

(** The keys of the index, in the order of iteration. *)
Definition keys (m : senders) : list socket := map fst m.

(** The entry that holds the ranges [R]: none when there is no range. *)
Definition entry_of (R : list Gap.t) : option (list Gap.t) :=
  match R with
  | [] => None
  | _ => Some R
  end.

Definition all_entries_nonempty (m : senders) : Prop :=
  Forall (fun kv => snd kv <> []) m.

(** The room after a broadcast: the batch is gone, the sockets stay. *)
Definition cleared (r : Room) : Room :=
  {| batched := 0; uniqueSenders := []; sharedMessage := [];
     sockets := sockets r; gotPubsThisIteration := gotPubsThisIteration r |}.

(** ** The properties asked of a window *)

(** What is sent to a sender of the window is made of the payloads of the
    other senders only. *)
Definition no_self_echo (r0 : Room) (cs : list call) : Prop :=
  forall r' evs s a,
    broadcast (run cs r0) = Ok (r', evs) ->
    In s (publishers cs) -> In a (sends_to s evs) ->
    payload_of a = others s cs.

(** The first loop computes, for every sender of the index, the shared
    message without the ranges of that sender, which is empty exactly when
    they cover all of it. *)
Definition exclusion_correct (r0 : Room) (cs : list call) : Prop :=
  let r := run cs r0 in
  forall s R, In (s, R) (uniqueSenders r) ->
    reconstruct (sharedMessage r) R = Ok (remove_ranges (sharedMessage r) R) /\
    (remove_ranges (sharedMessage r) R = [] <-> covers_all (sharedMessage r) R).



(** A broadcast on a room with nothing batched changes nothing and sends
    nothing. *)
Definition idle_broadcast_silent (r : Room) : Prop :=
  forall r' evs, broadcast r = Ok (r', evs) ->
    r' = r /\ forall s, sends_to s evs = [].

(** The ranges of one sender: sorted by start, strictly or not. *)
Definition strictly_sorted_starts (R : list Gap.t) : Prop :=
  StronglySorted (fun a b => Gap.start a < Gap.start b) R.

Definition sorted_starts (R : list Gap.t) : Prop :=
  StronglySorted (fun a b => Gap.start a <= Gap.start b) R.

(** Strictly so behind a range that is not empty. *)
Definition sorted_starts_behind_bytes (R : list Gap.t) : Prop :=
  StronglySorted (fun a b => 0 < Gap.length a -> Gap.start a < Gap.start b) R.

(** No range reaches into a later one. *)
Definition non_overlapping (R : list Gap.t) : Prop :=
  StronglySorted (fun a b => Gap.start a + Gap.length a <= Gap.start b) R.

Definition in_buffer (len : Z) (g : Gap.t) : Prop :=
  0 <= Gap.start g /\ 0 <= Gap.length g /\ Gap.start g + Gap.length g <= len.

Definition gaps_invariant_strict (r : Room) : Prop :=
  forall s R, In (s, R) (uniqueSenders r) ->
    strictly_sorted_starts R /\ non_overlapping R /\
    Forall (in_buffer (size (sharedMessage r))) R.

Definition gaps_invariant (r : Room) : Prop :=
  forall s R, In (s, R) (uniqueSenders r) ->
    sorted_starts R /\ sorted_starts_behind_bytes R /\ non_overlapping R /\
    Forall (in_buffer (size (sharedMessage r))) R.

(** ** Reachable rooms *)

(** One call on the room: by the connection and message handlers of [main],
    by the two loop callbacks, or a broadcast. *)
Inductive step : Room -> Room -> Prop :=
| step_subscribe (r : Room) (ws : socket) :
    step r (addSubscriber ws r)
| step_publish (r : Room) (sender : socket) (message : bytes) :
    step r (publish sender message r)
| step_broadcast (r r' : Room) (evs : list action) :
    broadcast r = Ok (r', evs) -> step r r'
| step_prepare (r : Room) :
    step r (fst (prepare_cb r))
| step_check (r r' : Room) (evs : list action) :
    check_cb r = Ok (r', evs) -> step r r'.

Inductive reachable : Room -> Prop :=
| reach_default : reachable defaultRoom
| reach_step (r r' : Room) : reachable r -> step r r' -> reachable r'.

(** ** Concrete windows *)

Definition B (s : string) : bytes := list_byte_of_string s.

(** The scenario of the specification: three subscribers, two of them
    publish. *)
Definition scenario_calls : list call :=
  [Subscribe 3; Subscribe 1; Subscribe 2;
   Publish 1 (B "hello"); Publish 2 (B "world")].

Definition scenario : Room := run scenario_calls defaultRoom.

(** A socket subscribed twice that publishes. *)
Definition listed_twice : list call :=
  [Subscribe 1; Subscribe 1; Publish 1 (B "a")].

(** A sender that is not subscribed, in front of a subscribed one. *)
Definition stranger_first : list call :=
  [Subscribe 2; Publish 1 (B "a"); Publish 2 (B "b")].



(** Messages whose length does not fit an [int]: [2 ^ 31] bytes, one more
    than [INT_MAX], and [2 ^ 32] bytes. *)
Definition two_gib : bytes := repeat x61 (Z.to_nat (2 ^ 31)).


(** ** The handlers and the loop of [main] *)

(** What the connection handler sends to the new socket. *)
Definition greeting : bytes := B "1234567890123456".

(** What the hub hands to the handlers while the loop polls. *)
Inductive io_event : Type :=
| Connection (ws : socket)
| Message (ws : socket) (message : bytes).

(** [hub.onConnection]: subscribe the socket to the default room, then greet
    it. *)
Definition onConnection (ws : socket) (r : Room) : Room * list action :=
  (addSubscriber ws r, [Send ws greeting]).

(** [hub.onMessage]: publish whatever was received. *)
Definition onMessage (ws : socket) (message : bytes) (r : Room)
    : Room * list action :=
  (publish ws message r, []).

Definition handle (r : Room) (e : io_event) : Room * list action :=
  match e with
  | Connection ws => onConnection ws r
  | Message ws message => onMessage ws message r
  end.

(** The polls of one loop iteration, handled in order. *)
Fixpoint poll (ios : list io_event) (r : Room) : Room * list action :=
  match ios with
  | [] => (r, [])
  | e :: ios' =>
      let (r1, a1) := handle r e in
      let (r2, a2) := poll ios' r1 in
      (r2, a1 ++ a2)
  end.

(** One iteration of the loop: the prepare callback, the polls that are
    ready, the check callback. *)
Definition iteration (ios : list io_event) (r : Room)
    : result (Room * list action) :=
  let (r1, a1) := prepare_cb r in
  let (r2, a2) := poll ios r1 in
  x <- check_cb r2 ;;
  Ok (fst x, a1 ++ a2 ++ snd x).

(** [hub.run()]: the iterations of the loop, each with the polls that were
    ready in it (none when only the timer woke the loop). *)
Fixpoint hub_run (passes : list (list io_event)) (r : Room)
    : result (Room * list action) :=
  match passes with
  | [] => Ok (r, [])
  | ios :: passes' =>
      x <- iteration ios r ;;
      y <- hub_run passes' (fst x) ;;
      Ok (fst y, snd x ++ snd y)
  end.

(** The calls on the room that the polls amount to. *)
Definition call_of (e : io_event) : call :=
  match e with
  | Connection ws => Subscribe ws
  | Message ws message => Publish ws message
  end.

(** The sockets that connect, in order. *)
Fixpoint subscribers (cs : list call) : list socket :=
  match cs with
  | [] => []
  | Subscribe ws :: cs' => ws :: subscribers cs'
  | Publish _ _ :: cs' => subscribers cs'
  end.

(** The bytes received by the loop, in order of arrival. *)
Definition inbound (passes : list (list io_event)) : bytes :=
  payloads (map call_of (List.concat passes)).

(** The bytes handed to [prepareMessage], broadcast after broadcast. *)
Fixpoint prepared (acts : list action) : bytes :=
  match acts with
  | [] => []
  | PrepareMessage p :: acts' => p ++ prepared acts'
  | _ :: acts' => prepared acts'
  end.

(** A trace of polls as the hub produces it from [connected] on: a socket
    connects once, and only a connected socket sends a message. *)
Fixpoint hub_trace (connected : list socket) (ios : list io_event) : Prop :=
  match ios with
  | [] => True
  | Connection ws :: ios' =>
      ~ In ws connected /\ hub_trace (ws :: connected) ios'
  | Message ws _ :: ios' => In ws connected /\ hub_trace connected ios'
  end.

(** The rooms the check callback can find in [main]: the default room,
    driven by the two callbacks and by the two handlers on a trace of the
    hub. *)
Inductive at_main : list socket -> Room -> Prop :=
| main_default : at_main [] defaultRoom
| main_connection (connected : list socket) (r : Room) (ws : socket) :
    at_main connected r -> ~ In ws connected ->
    at_main (ws :: connected) (fst (onConnection ws r))
| main_message (connected : list socket) (r : Room) (ws : socket)
    (message : bytes) :
    at_main connected r -> In ws connected ->
    at_main connected (fst (onMessage ws message r))
| main_prepare (connected : list socket) (r : Room) :
    at_main connected r -> at_main connected (fst (prepare_cb r))
| main_check (connected : list socket) (r r' : Room) (evs : list action) :
    at_main connected r -> check_cb r = Ok (r', evs) -> at_main connected r'.

(** Two rooms with the same batch and the same sockets. *)
Definition same_batch (r1 r2 : Room) : Prop :=
  uniqueSenders r1 = uniqueSenders r2 /\
  sharedMessage r1 = sharedMessage r2 /\
  sockets r1 = sockets r2.

(** Two sockets connect, each sends a message, then the loop turns once
    more on its timer. *)
Definition two_messages : list (list io_event) :=
  [[Connection 1; Connection 2]; [Message 1 (B "hello")];
   [Message 2 (B "world")]; []].

(** Where [two_messages] ends, and what it asks on the way. *)
Definition two_messages_end : Room :=
  {| uniqueSenders := []; sharedMessage := []; sockets := [1; 2];
     gotPubsThisIteration := false; batched := 0 |}.

Definition two_messages_actions : list action :=
  [Send 1 greeting; Send 2 greeting; TimerStart 1; TimerStart 1;
   PrepareMessage (B "helloworld"); Send 1 (B "world"); Send 2 (B "hello");
   FinalizeMessage].

(** The room that the check callback finds in the third iteration of
    [two_messages]. *)
Definition at_third_check : Room :=
  run [Publish 2 (B "world")]
    (fst (prepare_cb (run [Subscribe 1; Subscribe 2; Publish 1 (B "hello")]
                        defaultRoom))).

(** A room within a window: it has the batch and the sockets of a room
    that opened with nothing batched and got some calls since. *)
Definition in_window (r : Room) : Prop :=
  exists r0 cs,
    window_start r0 /\ Sorted Z.le (sockets r0) /\ same_batch r (run cs r0).

(** The same, when the sockets of the room are the connected ones and only
    they published. *)
Definition in_hub_window (connected : list socket) (r : Room) : Prop :=
  exists r0 cs,
    window_start r0 /\ Sorted Z.le (sockets r0) /\ same_batch r (run cs r0) /\
    (forall s, In s (publishers cs) -> In s connected) /\
    Permutation (sockets r) connected /\ NoDup connected.

(** The messages among the polls. *)
Definition messages (ios : list io_event) : list socket :=
  publishers (map call_of ios).

(** ** The earlier program, on global variables *)

(** The program of the second listing: the same two loops in [broadcast],
    with the batch, the flag [delaying] and the counter [ready_polls] in
    global variables, and the publication written out in the message
    handler. *)
Module Readme.

(** The global variables. *)
Record globals : Type := mkGlobals {
  sockets : list socket;
  uniqueSenders : senders;
  sharedMessage : bytes;
  ready_polls : Z;
  delaying : bool;
  batched : Z
}.

(** Their initial values. *)
Definition initial : globals :=
  {| sockets := []; uniqueSenders := []; sharedMessage := [];
     ready_polls := 0; delaying := false; batched := 0 |}.

Definition broadcast (g : globals) : result (globals * list action) :=
  um <- uniqueMessages (sharedMessage g) (uniqueSenders g) ;;
  let preparedMessage := sharedMessage g in
  Ok ({| delaying := false;
         batched := 0;
         uniqueSenders := [];
         sharedMessage := [];
         sockets := sockets g;
         ready_polls := ready_polls g |},
      PrepareMessage preparedMessage
        :: send_loop preparedMessage um 0 (sockets g) ++ [FinalizeMessage]).

(** The prepare callback. *)
Definition prepare_cb (g : globals) : globals * list action :=
  let g1 := {| ready_polls := 0;
               sockets := sockets g;
               uniqueSenders := uniqueSenders g;
               sharedMessage := sharedMessage g;
               delaying := delaying g;
               batched := batched g |} in
  if batched g1 =? 0 then (g1, []) else (g1, [TimerStart 1]).

(** The check callback. *)
Definition check_cb (g : globals) : result (globals * list action) :=
  if delaying g && (ready_polls g =? 0)
  then
    x <- broadcast g ;;
    Ok ({| delaying := false;
           sockets := sockets (fst x);
           uniqueSenders := uniqueSenders (fst x);
           sharedMessage := sharedMessage (fst x);
           ready_polls := ready_polls (fst x);
           batched := batched (fst x) |}, snd x)
  else Ok (g, []).

(** The connection handler. *)
Definition onConnection (ws : socket) (g : globals) : globals * list action :=
  ({| sockets := sort (sockets g ++ [ws]);
      uniqueSenders := uniqueSenders g;
      sharedMessage := sharedMessage g;
      ready_polls := ready_polls g;
      delaying := delaying g;
      batched := batched g |},
   [Send ws greeting]).

(** The message handler. *)
Definition onMessage (ws : socket) (message : bytes) (g : globals)
    : globals * list action :=
  let start := to_int (size (sharedMessage g)) in
  let entered := if negb (delaying g) then 0 else batched g in
  ({| sharedMessage := sharedMessage g ++ message;
      uniqueSenders :=
        push_gap ws (Gap.make start (to_int (size message))) (uniqueSenders g);
      sockets := sockets g;
      delaying := if negb (delaying g) then true else delaying g;
      ready_polls := to_int (ready_polls g + 1);
      batched := to_int (entered + 1) |},
   []).

Definition handle (g : globals) (e : io_event) : globals * list action :=
  match e with
  | Connection ws => onConnection ws g
  | Message ws message => onMessage ws message g
  end.

Fixpoint poll (ios : list io_event) (g : globals) : globals * list action :=
  match ios with
  | [] => (g, [])
  | e :: ios' =>
      let (g1, a1) := handle g e in
      let (g2, a2) := poll ios' g1 in
      (g2, a1 ++ a2)
  end.

Definition iteration (ios : list io_event) (g : globals)
    : result (globals * list action) :=
  let (g1, a1) := prepare_cb g in
  let (g2, a2) := poll ios g1 in
  x <- check_cb g2 ;;
  Ok (fst x, a1 ++ a2 ++ snd x).

Fixpoint hub_run (passes : list (list io_event)) (g : globals)
    : result (globals * list action) :=
  match passes with
  | [] => Ok (g, [])
  | ios :: passes' =>
      x <- iteration ios g ;;
      y <- hub_run passes' (fst x) ;;
      Ok (fst y, snd x ++ snd y)
  end.

End Readme.

(** What a run asks of the transport and of the loop, or its fault. *)
Definition actions_of {S : Type} (x : result (S * list action))
    : result (list action) :=
  match x with
  | Ok (_, acts) => Ok acts
  | Fail f => Fail f
  end.

(** The globals of the earlier program and the room of the later one agree,
    at most [n] messages after the start. *)
Definition agree (n : Z) (g : Readme.globals) (r : Room) : Prop :=
  Readme.sockets g = sockets r /\
  Readme.uniqueSenders g = uniqueSenders r /\
  Readme.sharedMessage g = sharedMessage r /\
  Readme.batched g = batched r /\
  0 <= batched r <= n /\ 0 <= Readme.ready_polls g <= n /\
  Readme.delaying g = negb (batched r =? 0) /\
  (batched r <> 0 ->
   gotPubsThisIteration r = negb (Readme.ready_polls g =? 0)).

(** Two runs agree: the same fault, or the same actions and states that
    agree. *)
Definition agree_runs (n : Z) (x : result (Readme.globals * list action))
    (y : result (Room * list action)) : Prop :=
  match x, y with
  | Ok (g, a), Ok (r, a') => a = a' /\ agree n g r
  | Fail f, Fail f' => f = f'
  | _, _ => False
  end.

(** ** The benchmark client *)

(** The counters of [redisBenchmark.cpp] and its four functions.  The clock
    and the latency that is printed are left out of the state; reading the
    clock and printing are effects. *)
Module Bench.

(** A Redis connection, as [redisAsyncConnect] returns it. *)
Definition context := Z.

Inductive effect : Type :=
| AsyncConnect (c : context)
| CmdSubscribe (c : context)
| SetConnectCallback (c : context)
| CmdPublish (c : context)
| SetStart
| PrintLatency.

Record globals : Type := mkGlobals {
  remainingSubs : Z;
  remainingPubs : Z;
  pubs : list context;
  remainingMessages : Z;
  numMessages : Z;
  iterations : Z;
  next_context : context
}.

(** The initial values; [next_context] is the connection that
    [redisAsyncConnect] returns next. *)
Definition initial : globals :=
  {| remainingSubs := 9000;
     remainingPubs := 1000;
     pubs := [];
     remainingMessages := to_int (9000 * 1000);
     numMessages := to_int (9000 * 1000);
     iterations := 0;
     next_context := 0 |}.

Definition publish (g : globals) : list effect := map CmdPublish (pubs g).

Definition nextConnection (g : globals) : globals * list effect :=
  let c := next_context g in
  ({| next_context := c + 1;
      remainingSubs := remainingSubs g;
      remainingPubs := remainingPubs g;
      pubs := pubs g;
      remainingMessages := remainingMessages g;
      numMessages := numMessages g;
      iterations := iterations g |},
   AsyncConnect c
     :: (if negb (remainingSubs g =? 0) then [CmdSubscribe c]
         else if negb (remainingPubs g =? 0) then [SetConnectCallback c]
         else [])).

Definition subCallback (g : globals) : globals * list effect :=
  let subs := if negb (remainingSubs g =? 0)
              then to_int (remainingSubs g - 1) else remainingSubs g in
  let g1 := {| remainingSubs := subs;
               remainingPubs := remainingPubs g;
               pubs := pubs g;
               remainingMessages := remainingMessages g;
               numMessages := numMessages g;
               iterations := iterations g;
               next_context := next_context g |} in
  if (subs =? 0) && (remainingPubs g =? 0) then
    let left := to_int (remainingMessages g - 1) in
    if left =? 0 then
      ({| iterations := to_int (iterations g + 1);
          remainingMessages := numMessages g;
          remainingSubs := subs;
          remainingPubs := remainingPubs g;
          pubs := pubs g;
          numMessages := numMessages g;
          next_context := next_context g |},
       PrintLatency :: publish g1)
    else
      ({| remainingMessages := left;
          remainingSubs := subs;
          remainingPubs := remainingPubs g;
          pubs := pubs g;
          numMessages := numMessages g;
          iterations := iterations g;
          next_context := next_context g |},
       [])
  else nextConnection g1.

Definition connectCallback (c : context) (g : globals) : globals * list effect :=
  let g1 := {| pubs := pubs g ++ [c];
               remainingPubs := to_int (remainingPubs g - 1);
               remainingSubs := remainingSubs g;
               remainingMessages := remainingMessages g;
               numMessages := numMessages g;
               iterations := iterations g;
               next_context := next_context g |} in
  if (remainingSubs g1 =? 0) && (remainingPubs g1 =? 0)
  then (g1, SetStart :: publish g1)
  else nextConnection g1.

(** [n] replies on the subscriber connections, one after the other. *)
Fixpoint replies (n : nat) (g : globals) : globals * list effect :=
  match n with
  | O => (g, [])
  | S n' =>
      let (g1, e1) := subCallback g in
      let (g2, e2) := replies n' g1 in
      (g2, e1 ++ e2)
  end.

(** The publisher connections [cs] get connected, one after the other. *)
Fixpoint connects (cs : list context) (g : globals) : globals * list effect :=
  match cs with
  | [] => (g, [])
  | c :: cs' =>
      let (g1, e1) := connectCallback c g in
      let (g2, e2) := connects cs' g1 in
      (g2, e1 ++ e2)
  end.

(** The [PUBLISH] commands among the effects. *)
Fixpoint published (es : list effect) : list context :=
  match es with
  | [] => []
  | CmdPublish c :: es' => c :: published es'
  | _ :: es' => published es'
  end.

(** The connections opened among the effects. *)
Fixpoint opened (es : list effect) : list context :=
  match es with
  | [] => []
  | AsyncConnect c :: es' => c :: opened es'
  | _ :: es' => opened es'
  end.

(** The [n] connections that [redisAsyncConnect] returns from [c] on. *)
Fixpoint contexts_from (c : context) (n : nat) : list context :=
  match n with
  | O => []
  | S n' => c :: contexts_from (c + 1) n'
  end.

(** Opening subscriber connections, then publisher connections. *)
Definition subscriber_wave (cs : list context) : list effect :=
  flat_map (fun c => [AsyncConnect c; CmdSubscribe c]) cs.

Definition publisher_wave (cs : list context) : list effect :=
  flat_map (fun c => [AsyncConnect c; SetConnectCallback c]) cs.

(** The benchmark runs its rounds: every subscriber and every publisher is
    connected. *)
Definition steady (g : globals) : Prop :=
  remainingSubs g = 0 /\ remainingPubs g = 0.

End Bench.

(** A benchmark of two subscribers and two publishers, after [main] has
    opened the first connection. *)
Definition small_bench : Bench.globals :=
  {| Bench.remainingSubs := 2; Bench.remainingPubs := 2; Bench.pubs := [];
     Bench.remainingMessages := 4; Bench.numMessages := 4;
     Bench.iterations := 0; Bench.next_context := 1 |}.

(** ** Reading a dispatch and a list of gaps *)

(** [l1] is [l2] with some elements left out. *)
Inductive subseq {A : Type} : list A -> list A -> Prop :=
| subseq_nil : subseq [] []
| subseq_skip (x : A) (l1 l2 : list A) : subseq l1 l2 -> subseq l1 (x :: l2)
| subseq_take (x : A) (l1 l2 : list A) :
    subseq l1 l2 -> subseq (x :: l1) (x :: l2).

(** The sockets a dispatch sends to, in order. *)
Fixpoint targets (acts : list action) : list socket :=
  match acts with
  | [] => []
  | a :: acts' =>
      match target a with
      | Some s => s :: targets acts'
      | None => targets acts'
      end
  end.

(** The number of gaps in the index. *)
Fixpoint total_gaps (m : senders) : nat :=
  match m with
  | [] => 0
  | (_, v) :: m' => List.length v + total_gaps m'
  end.

(** The bytes that the gaps take out. *)
Fixpoint removed (R : list Gap.t) : Z :=
  match R with
  | [] => 0
  | g :: R' => Gap.length g + removed R'
  end.

(** Where the last gap stops, [lo] when there is none. *)
Fixpoint last_stop (lo : Z) (R : list Gap.t) : Z :=
  match R with
  | [] => lo
  | g :: R' => last_stop (gap_end g) R'
  end.

(** A window in two parts. *)
Definition first_x : list call := [Subscribe 1; Subscribe 2; Publish 1 (B "x")].
Definition then_y : list call := [Publish 1 (B "y")].

(** * Properties *)

(** ** Machine integers within range *)

Ltac in_range := unfold INT_MIN, INT_MAX, npos, gap_end in *; lia.

Lemma to_int_id (z : Z) : INT_MIN <= z <= INT_MAX -> to_int z = z.
Proof.
  unfold INT_MIN, INT_MAX, to_int. intros H.
  rewrite Z.mod_small by lia. lia.
Qed.

Lemma to_size_t_id (z : Z) : 0 <= z <= INT_MAX -> to_size_t z = z.
Proof.
  unfold INT_MAX, to_size_t. intros H.
  apply Z.mod_small. lia.
Qed.

Lemma size_nonneg {A : Type} (l : list A) : 0 <= size l.
Proof. unfold size. lia. Qed.

Lemma size_app {A : Type} (l1 l2 : list A) : size (l1 ++ l2) = size l1 + size l2.
Proof. unfold size. rewrite length_app. lia. Qed.

Lemma size_cons {A : Type} (a : A) (l : list A) : size (a :: l) = 1 + size l.
Proof. unfold size. simpl List.length. lia. Qed.

(** ** Slices of a buffer *)

Lemma slice_split (s : bytes) (a b : Z) :
  0 <= a <= b -> b <= size s ->
  skipn (Z.to_nat a) s = slice s a b ++ skipn (Z.to_nat b) s.
Proof.
  intros Hab Hb. unfold slice.
  replace (Z.to_nat b) with (Z.to_nat (b - a) + Z.to_nat a)%nat by lia.
  rewrite <- skipn_skipn. symmetry. apply firstn_skipn.
Qed.

Lemma slice_to_end (s : bytes) (a : Z) :
  0 <= a <= size s -> slice s a (size s) = skipn (Z.to_nat a) s.
Proof.
  intros Ha. unfold slice. apply firstn_all2.
  rewrite length_skipn. unfold size in *. lia.
Qed.

Lemma size_slice (s : bytes) (a b : Z) :
  0 <= a <= b -> b <= size s -> size (slice s a b) = b - a.
Proof.
  intros Hab Hb. unfold slice, size in *.
  rewrite length_firstn, length_skipn. lia.
Qed.

(** ** Removing ranges, position by position *)

Lemma keep_from_app (R : list Gap.t) (s1 s2 : bytes) (i : Z) :
  keep_from i R (s1 ++ s2) = keep_from i R s1 ++ keep_from (i + size s1) R s2.
Proof.
  revert i. induction s1 as [|b s1 IH]; intros i; simpl.
  - unfold size; simpl. now rewrite Z.add_0_r.
  - rewrite IH, size_cons.
    replace (i + 1 + size s1) with (i + (1 + size s1)) by lia.
    now destruct (covered i R).
Qed.

Lemma keep_from_ext (R R' : list Gap.t) (s : bytes) (i : Z) :
  (forall j, i <= j < i + size s -> covered j R = covered j R') ->
  keep_from i R s = keep_from i R' s.
Proof.
  revert i. induction s as [|b s IH]; intros i H; simpl; [reflexivity|].
  rewrite size_cons in H. pose proof (size_nonneg s).
  rewrite (H i) by lia. rewrite (IH (i + 1)); [reflexivity|].
  intros j Hj. apply H. lia.
Qed.

Lemma keep_from_all (R : list Gap.t) (s : bytes) (i : Z) :
  (forall j, i <= j < i + size s -> covered j R = false) ->
  keep_from i R s = s.
Proof.
  revert i. induction s as [|b s IH]; intros i H; simpl; [reflexivity|].
  rewrite size_cons in H. pose proof (size_nonneg s).
  rewrite (H i) by lia. f_equal. apply IH. intros j Hj. apply H. lia.
Qed.

Lemma keep_from_none (R : list Gap.t) (s : bytes) (i : Z) :
  (forall j, i <= j < i + size s -> covered j R = true) ->
  keep_from i R s = [].
Proof.
  revert i. induction s as [|b s IH]; intros i H; simpl; [reflexivity|].
  rewrite size_cons in H. pose proof (size_nonneg s).
  rewrite (H i) by lia. apply IH. intros j Hj. apply H. lia.
Qed.

Lemma keep_from_nil_inv (R : list Gap.t) (s : bytes) (i : Z) :
  keep_from i R s = [] ->
  forall j, i <= j < i + size s -> covered j R = true.
Proof.
  revert i. induction s as [|b s IH]; intros i H j Hj.
  - unfold size in Hj; simpl in Hj. lia.
  - simpl in H. rewrite size_cons in Hj.
    destruct (covered i R) eqn:E; [|discriminate].
    destruct (Z.eq_dec j i) as [->|Hne]; [assumption|].
    apply (IH (i + 1)); [assumption|lia].
Qed.

Lemma covered_cons (j : Z) (g : Gap.t) (R : list Gap.t) :
  covered j (g :: R) = ((Gap.start g <=? j) && (j <? gap_end g)) || covered j R.
Proof. reflexivity. Qed.

Lemma covered_below (R : list Gap.t) (lo hi j : Z) :
  ordered_from lo R hi -> j < lo -> covered j R = false.
Proof.
  revert lo. induction R as [|g R IH]; intros lo H Hj; [reflexivity|].
  destruct H as (H1 & H2 & H3). rewrite covered_cons.
  rewrite (IH (gap_end g)) by (trivial; unfold gap_end; lia).
  replace (Gap.start g <=? j) with false by (symmetry; apply Z.leb_gt; lia).
  reflexivity.
Qed.

Lemma ordered_from_bounds (R : list Gap.t) (lo hi : Z) :
  ordered_from lo R hi -> lo <= hi.
Proof.
  revert lo. induction R as [|g R IH]; intros lo H; simpl in H; [lia|].
  destruct H as (H1 & H2 & H3). apply IH in H3. unfold gap_end in *. lia.
Qed.

(** One step of the complement: the bytes before the next range are kept,
    the bytes of the range are dropped. *)
Lemma keep_from_step (buffer : bytes) (g : Gap.t) (R : list Gap.t) (lo : Z) :
  0 <= lo -> ordered_from lo (g :: R) (size buffer) ->
  keep_from lo (g :: R) (skipn (Z.to_nat lo) buffer)
  = slice buffer lo (Gap.start g)
      ++ keep_from (gap_end g) R (skipn (Z.to_nat (gap_end g)) buffer).
Proof.
  intros Hlo H. destruct H as (H1 & H2 & H3).
  pose proof (ordered_from_bounds _ _ _ H3) as He.
  assert (Hs : Gap.start g <= gap_end g) by (unfold gap_end; lia).
  rewrite (slice_split buffer lo (Gap.start g)) by lia.
  rewrite (slice_split buffer (Gap.start g) (gap_end g)) by lia.
  rewrite !keep_from_app, !size_slice by lia.
  replace (lo + (Gap.start g - lo)) with (Gap.start g) by lia.
  replace (Gap.start g + (gap_end g - Gap.start g)) with (gap_end g) by lia.
  rewrite keep_from_all, keep_from_none.
  - simpl. f_equal. apply keep_from_ext. intros j Hj.
    rewrite covered_cons.
    replace (j <? gap_end g) with false by (symmetry; apply Z.ltb_ge; lia).
    now rewrite andb_false_r.
  - intros j Hj. rewrite size_slice in Hj by lia. rewrite covered_cons.
    replace (Gap.start g <=? j) with true by (symmetry; apply Z.leb_le; lia).
    replace (j <? gap_end g) with true by (symmetry; apply Z.ltb_lt; lia).
    reflexivity.
  - intros j Hj. rewrite size_slice in Hj by lia. rewrite covered_cons.
    replace (Gap.start g <=? j) with false by (symmetry; apply Z.leb_gt; lia).
    simpl. apply (covered_below R (gap_end g) (size buffer)); [assumption|lia].
Qed.

(** The segments of the specification are the uncovered bytes. *)
Lemma between_keep (buffer : bytes) (R : list Gap.t) (prev : Gap.t) :
  0 <= gap_end prev -> ordered_from (gap_end prev) R (size buffer) ->
  between buffer prev R
  = keep_from (gap_end prev) R (skipn (Z.to_nat (gap_end prev)) buffer).
Proof.
  revert prev. induction R as [|g R IH]; intros prev H0 H.
  - simpl in *. rewrite slice_to_end by lia.
    symmetry. apply keep_from_all. reflexivity.
  - rewrite keep_from_step by assumption. simpl. f_equal.
    destruct H as (H1 & H2 & H3). apply IH; [unfold gap_end in *; lia|assumption].
Qed.

Lemma segments_remove_ranges (buffer : bytes) (R : list Gap.t) :
  ordered_from 0 R (size buffer) -> segments buffer R = remove_ranges buffer R.
Proof.
  intros H. unfold remove_ranges. destruct R as [|g R]; simpl segments.
  - symmetry. apply keep_from_all. reflexivity.
  - change buffer with (skipn (Z.to_nat 0) buffer) at 3.
    rewrite keep_from_step by (trivial; lia). f_equal.
    destruct H as (H1 & H2 & H3). apply between_keep; [unfold gap_end; lia|assumption].
Qed.

Lemma remove_ranges_nil_iff (buffer : bytes) (R : list Gap.t) :
  remove_ranges buffer R = [] <-> covers_all buffer R.
Proof.
  unfold remove_ranges, covers_all. split.
  - intros H j Hj. apply (keep_from_nil_inv _ _ _ H). lia.
  - intros H. apply keep_from_none. intros j Hj. apply H. lia.
Qed.

(** ** The first loop computes the complement *)

Section Fits.

(** A buffer whose length fits an [int]: the conversions between [int]
    and [size_t] then keep every position of the buffer. *)
Variable buffer : bytes.
Hypothesis buffer_fits : size buffer <= INT_MAX.

Lemma substr_slice (a b : Z) :
  0 <= a <= b -> b <= size buffer ->
  substr buffer (to_size_t a) (to_size_t (to_int (b - a)))
  = Ok (slice buffer a b).
Proof.
  intros Hab Hb. unfold substr, slice.
  rewrite (to_int_id (b - a)) by in_range.
  rewrite !to_size_t_id by lia.
  destruct (size buffer <? a) eqn:E; [apply Z.ltb_lt in E; lia|].
  rewrite Z.min_l by lia. reflexivity.
Qed.

Lemma substr_first (b : Z) :
  0 <= b <= size buffer ->
  substr buffer 0 (to_size_t b) = Ok (slice buffer 0 b).
Proof.
  intros Hb. unfold substr, slice.
  rewrite to_size_t_id by lia.
  destruct (size buffer <? 0) eqn:E; [apply Z.ltb_lt in E; lia|].
  rewrite Z.min_l by lia. rewrite Z.sub_0_r. reflexivity.
Qed.

Lemma substr_rest (a : Z) :
  0 <= a <= size buffer ->
  substr buffer (to_size_t a) npos = Ok (slice buffer a (size buffer)).
Proof.
  intros Ha. unfold substr, slice.
  rewrite to_size_t_id by lia.
  destruct (size buffer <? a) eqn:E; [apply Z.ltb_lt in E; lia|].
  rewrite Z.min_r by in_range. reflexivity.
Qed.

Lemma gap_loop_keep (rest : list Gap.t) (lastStop : Z) (msg : bytes) :
  0 <= lastStop ->
  ordered_from lastStop rest (size buffer) ->
  gap_loop buffer rest lastStop msg
  = Ok (msg ++ keep_from lastStop rest (skipn (Z.to_nat lastStop) buffer)).
Proof.
  revert lastStop msg.
  induction rest as [|g rest IH]; intros lastStop msg H0 H.
  - simpl in *. rewrite substr_rest by lia. simpl.
    rewrite slice_to_end by lia. rewrite keep_from_all; reflexivity.
  - rewrite keep_from_step by assumption.
    destruct H as (H1 & H2 & H3).
    pose proof (ordered_from_bounds _ _ _ H3) as He.
    simpl. rewrite substr_slice by in_range. simpl.
    fold (gap_end g).
    rewrite to_int_id by in_range.
    rewrite IH by (trivial; in_range).
    now rewrite app_assoc.
Qed.

Lemma reconstruct_removes (R : list Gap.t) :
  R <> [] -> ordered_from 0 R (size buffer) ->
  reconstruct buffer R = Ok (remove_ranges buffer R).
Proof.
  intros Hne H. destruct R as [|g R]; [contradiction|].
  pose proof (keep_from_step buffer g R 0 (Z.le_refl 0) H) as Hk.
  change (skipn (Z.to_nat 0) buffer) with buffer in Hk.
  unfold remove_ranges. rewrite Hk.
  destruct H as (H1 & H2 & H3).
  pose proof (ordered_from_bounds _ _ _ H3) as He.
  unfold reconstruct. simpl.
  rewrite substr_first by in_range. simpl.
  fold (gap_end g).
  rewrite to_int_id by in_range.
  apply gap_loop_keep; trivial. in_range.
Qed.

Lemma uniqueMessages_removes (m : senders) :
  Forall (fun kv => snd kv <> [] /\ ordered_from 0 (snd kv) (size buffer)) m ->
  uniqueMessages buffer m
  = Ok (map (fun kv => (fst kv, remove_ranges buffer (snd kv))) m).
Proof.
  intros H. induction H as [|[k R] m [Hne Hord] _ IH]; [reflexivity|].
  simpl in *. rewrite reconstruct_removes by assumption. simpl.
  rewrite IH. reflexivity.
Qed.

End Fits.

(** ** The calls of a window, read on their own *)

Lemma run_snoc (cs : list call) (c : call) (r : Room) :
  run (cs ++ [c]) r = run_call (run cs r) c.
Proof. unfold run. now rewrite fold_left_app. Qed.

Lemma payloads_app (cs1 cs2 : list call) :
  payloads (cs1 ++ cs2) = payloads cs1 ++ payloads cs2.
Proof.
  induction cs1 as [|[ws|k p] cs1 IH]; simpl; trivial.
  now rewrite IH, app_assoc.
Qed.

Lemma publishers_app (cs1 cs2 : list call) :
  publishers (cs1 ++ cs2) = publishers cs1 ++ publishers cs2.
Proof.
  induction cs1 as [|[ws|k p] cs1 IH]; simpl; trivial. now rewrite IH.
Qed.

Lemma recorded_app (s : socket) (cs1 cs2 : list call) (off : Z) :
  recorded s (cs1 ++ cs2) off
  = recorded s cs1 off ++ recorded s cs2 (off + size (payloads cs1)).
Proof.
  revert off. induction cs1 as [|[ws|k p] cs1 IH]; intros off; simpl.
  - unfold size; simpl. now rewrite Z.add_0_r.
  - apply IH.
  - rewrite IH, size_app, Z.add_assoc. now destruct (k =? s).
Qed.

Lemma recorded_ordered (s : socket) (cs : list call) (off : Z) :
  ordered_from off (recorded s cs off) (off + size (payloads cs)).
Proof.
  revert off. induction cs as [|[ws|k p] cs IH]; intros off; simpl.
  - unfold size; simpl. lia.
  - apply IH.
  - rewrite size_app, Z.add_assoc. pose proof (size_nonneg p).
    destruct (k =? s); simpl.
    + repeat split; try lia. apply IH.
    + specialize (IH (off + size p)). revert IH.
      generalize (off + size p + size (payloads cs)) as hi.
      destruct (recorded s cs (off + size p)) as [|g R]; simpl; intros; lia || idtac.
      destruct IH as (H1 & H2 & H3). repeat split; trivial; lia.
Qed.



(** ** The index of unique senders *)

Lemma find_sender_absent (s : socket) (m : senders) :
  ~ In s (keys m) <-> find_sender s m = None.
Proof.
  induction m as [|[k v] m IH]; simpl; [tauto|].
  destruct (Z.eqb_spec k s) as [->|Hne].
  - split; [intros H; exfalso; apply H; now left|discriminate].
  - rewrite <- IH. tauto.
Qed.

Lemma find_sender_In (s : socket) (R : list Gap.t) (m : senders) :
  find_sender s m = Some R -> In (s, R) m.
Proof.
  induction m as [|[k v] m IH]; simpl; [discriminate|].
  destruct (Z.eqb_spec k s) as [->|Hne].
  - intros [= ->]. now left.
  - intros H. right. now apply IH.
Qed.

Lemma In_find_sender (s : socket) (R : list Gap.t) (m : senders) :
  StronglySorted Z.lt (keys m) -> In (s, R) m -> find_sender s m = Some R.
Proof.
  induction m as [|[k v] m IH]; simpl; intros Hs H; [contradiction|].
  apply StronglySorted_inv in Hs. destruct Hs as [Hs Hk].
  destruct H as [[= -> ->]|H].
  - now rewrite Z.eqb_refl.
  - destruct (Z.eqb_spec k s) as [->|Hne]; [|now apply IH].
    rewrite Forall_forall in Hk. specialize (Hk s).
    assert (In s (keys m)) by (apply (in_map fst _ _ H)).
    apply Hk in H0. lia.
Qed.

Lemma keys_push_gap (k : socket) (g : Gap.t) (m : senders) (x : socket) :
  In x (keys (push_gap k g m)) <-> x = k \/ In x (keys m).
Proof.
  induction m as [|[k0 v0] m IH]; simpl.
  - intuition.
  - destruct (k <? k0); simpl; [intuition|].
    destruct (Z.eqb_spec k k0) as [->|Hne]; simpl; [intuition|].
    rewrite IH. intuition.
Qed.

Lemma push_gap_sorted (k : socket) (g : Gap.t) (m : senders) :
  StronglySorted Z.lt (keys m) -> StronglySorted Z.lt (keys (push_gap k g m)).
Proof.
  induction m as [|[k0 v0] m IH]; simpl; intros Hs.
  - repeat constructor.
  - pose proof Hs as Hs0.
    apply StronglySorted_inv in Hs. destruct Hs as [Hs Hk].
    destruct (Z.ltb_spec k k0) as [Hlt|Hge]; simpl.
    + constructor; [assumption|]. constructor; [assumption|].
      rewrite Forall_forall in *. intros x Hx. specialize (Hk x Hx). lia.
    + destruct (Z.eqb_spec k k0) as [->|Hne]; simpl; [assumption|].
      constructor; [now apply IH|].
      rewrite Forall_forall in *. intros x Hx.
      apply keys_push_gap in Hx. destruct Hx as [->|Hx]; [lia|now apply Hk].
Qed.

Lemma find_sender_push_gap (s k : socket) (g : Gap.t) (m : senders) :
  StronglySorted Z.lt (keys m) ->
  find_sender s (push_gap k g m)
  = if k =? s
    then Some (match find_sender k m with Some v => v ++ [g] | None => [g] end)
    else find_sender s m.
Proof.
  induction m as [|[k0 v0] m IH]; simpl; intros Hs; [reflexivity|].
  pose proof Hs as Hs0.
  apply StronglySorted_inv in Hs. destruct Hs as [Hs Hk].
  destruct (Z.ltb_spec k k0) as [Hlt|Hge]; simpl.
  - destruct (Z.eqb_spec k s) as [->|Hne]; [|reflexivity].
    destruct (Z.eqb_spec k0 s) as [->|Hne]; [lia|].
    replace (find_sender s m) with (@None (list Gap.t)); [reflexivity|].
    symmetry. apply find_sender_absent. intros Hin.
    rewrite Forall_forall in Hk. specialize (Hk s Hin). lia.
  - destruct (Z.eqb_spec k k0) as [->|Hne]; simpl.
    + rewrite Z.eqb_refl. now destruct (k0 =? s).
    + rewrite IH by assumption.
      destruct (Z.eqb_spec k0 k) as [->|_]; [contradiction|].
      destruct (Z.eqb_spec k0 s) as [->|Hne']; [|reflexivity].
      destruct (Z.eqb_spec k s) as [->|_]; [contradiction|reflexivity].
Qed.

(** ** Sorting the sockets *)

Lemma insert_perm (x : socket) (l : list socket) :
  Permutation (x :: l) (insert x l).
Proof.
  induction l as [|y l IH]; simpl; [reflexivity|].
  destruct (x <=? y); [reflexivity|].
  rewrite perm_swap. now constructor.
Qed.

Lemma insert_sorted (x : socket) (l : list socket) :
  Sorted Z.le l -> Sorted Z.le (insert x l).
Proof.
  induction 1 as [|y l Hs IH Hy]; simpl; [repeat constructor|].
  destruct (Z.leb_spec x y) as [Hle|Hgt].
  - repeat constructor; assumption.
  - constructor; [assumption|].
    destruct l as [|z l]; simpl in *.
    + constructor. lia.
    + destruct (x <=? z); constructor; try lia. now inversion Hy.
Qed.

Lemma sort_perm (l : list socket) : Permutation l (sort l).
Proof.
  induction l as [|x l IH]; simpl; [reflexivity|].
  rewrite <- insert_perm. now constructor.
Qed.

Lemma sort_sorted (l : list socket) : Sorted Z.le (sort l).
Proof.
  induction l as [|x l IH]; simpl; [constructor|]. now apply insert_sorted.
Qed.

Lemma run_sockets_sorted (r0 : Room) (cs : list call) :
  Sorted Z.le (sockets r0) -> Sorted Z.le (sockets (run cs r0)).
Proof.
  intros H. induction cs as [|c cs IH] using rev_ind; [assumption|].
  rewrite run_snoc. destruct c as [ws|k p]; simpl; [apply sort_sorted|assumption].
Qed.

Lemma sorted_nodup_strict (l : list socket) :
  Sorted Z.le l -> NoDup l -> StronglySorted Z.lt l.
Proof.
  intros Hs Hn. apply Sorted_StronglySorted in Hs; [|intros x y z; lia].
  induction Hs as [|x l Hs IH Hx]; [constructor|].
  inversion Hn as [|? ? Hnx Hn']; subst.
  constructor; [now apply IH|].
  rewrite Forall_forall in *. intros y Hy. specialize (Hx y Hy).
  assert (x <> y) by (intros ->; contradiction). lia.
Qed.

(** ** The second loop *)

Lemma skipn_cursor {A : Type} (l : list A) (j : nat) :
  skipn j l = match nth_error l j with
              | Some a => a :: skipn (S j) l
              | None => []
              end.
Proof.
  revert j. induction l as [|a l IH]; intros [|j]; simpl; trivial.
Qed.

Lemma send_loop_walk (prepared : bytes) (um : list (socket * bytes))
    (socks : list socket) (j : nat) :
  send_loop prepared um j socks = walk prepared (skipn j um) socks.
Proof.
  revert j. induction socks as [|s socks IH]; intros j; simpl; trivial.
  rewrite (skipn_cursor um j).
  destruct (nth_error um j) as [[h msg]|] eqn:E.
  - destruct (h =? s).
    + now rewrite IH.
    + rewrite IH, (skipn_cursor um j), E. reflexivity.
  - rewrite IH, (skipn_cursor um j), E. reflexivity.
Qed.

Lemma sends_to_app (s : socket) (l1 l2 : list action) :
  sends_to s (l1 ++ l2) = sends_to s l1 ++ sends_to s l2.
Proof. apply filter_app. Qed.

Lemma sends_to_unique (s x : socket) (msg : bytes) :
  sends_to s (if size msg =? 0 then [] else [Send x msg])
  = if x =? s then (if size msg =? 0 then [] else [Send x msg]) else [].
Proof.
  destruct (size msg =? 0); simpl; [now destruct (x =? s)|].
  unfold sent_to; simpl. now destruct (x =? s).
Qed.

(** Every send of the loop goes to a socket of the list. *)
Lemma walk_absent (prepared : bytes) (ahead : list (socket * bytes))
    (socks : list socket) (s : socket) :
  ~ In s socks -> sends_to s (walk prepared ahead socks) = [].
Proof.
  revert ahead. induction socks as [|x socks IH]; intros ahead H; [reflexivity|].
  simpl in H. assert (Hx : (x =? s) = false) by (apply Z.eqb_neq; tauto).
  assert (Hs : ~ In s socks) by tauto.
  simpl. destruct ahead as [|[h msg] ahead'].
  - simpl. unfold sent_to at 1. simpl. rewrite Hx. now apply IH.
  - destruct (h =? x).
    + rewrite sends_to_app, sends_to_unique, Hx. now apply IH.
    + simpl. unfold sent_to at 1. simpl. rewrite Hx. now apply IH.
Qed.

(** A socket without unique message gets the prepared message, once per
    entry in the list. *)
Lemma walk_listener (prepared : bytes) (ahead : list (socket * bytes))
    (socks : list socket) (s : socket) :
  ~ In s (map fst ahead) ->
  sends_to s (walk prepared ahead socks)
  = repeat (SendPrepared s prepared) (count_occ Z.eq_dec socks s).
Proof.
  revert ahead. induction socks as [|x socks IH]; intros ahead H; [reflexivity|].
  simpl. destruct ahead as [|[h msg] ahead'].
  - simpl. unfold sent_to at 1. simpl.
    destruct (Z.eq_dec x s) as [->|Hne].
    + rewrite Z.eqb_refl. simpl. f_equal. now apply IH.
    + apply Z.eqb_neq in Hne. rewrite Hne. now apply IH.
  - simpl in H. destruct (Z.eqb_spec h x) as [->|Hhx].
    + rewrite sends_to_app, sends_to_unique.
      destruct (Z.eq_dec x s) as [->|Hne]; [tauto|].
      apply Z.eqb_neq in Hne. rewrite Hne. simpl. apply IH. tauto.
    + simpl. unfold sent_to at 1. simpl.
      destruct (Z.eq_dec x s) as [->|Hne].
      * rewrite Z.eqb_refl. simpl. f_equal. now apply IH.
      * apply Z.eqb_neq in Hne. rewrite Hne. now apply IH.
Qed.

(** A sender listed once gets its unique message and nothing else, provided
    the cursor can pass every unique message with a smaller key. *)
Lemma walk_sender (prepared : bytes) (ahead : list (socket * bytes))
    (socks : list socket) (s : socket) (msg : bytes) :
  StronglySorted Z.lt socks ->
  StronglySorted Z.lt (map fst ahead) ->
  In (s, msg) ahead -> In s socks ->
  (forall k, In k (map fst ahead) -> k < s -> In k socks) ->
  sends_to s (walk prepared ahead socks)
  = if size msg =? 0 then [] else [Send s msg].
Proof.
  revert ahead. induction socks as [|x socks IH]; intros ahead Hss Hsa Hin Hs Hlow;
    [contradiction|].
  apply StronglySorted_inv in Hss. destruct Hss as [Hss Hx].
  rewrite Forall_forall in Hx.
  destruct ahead as [|[h m] ahead']; [contradiction|].
  simpl in Hsa. apply StronglySorted_inv in Hsa. destruct Hsa as [Hsa Hh].
  rewrite Forall_forall in Hh.
  assert (Hhs : h <= s).
  { destruct Hin as [[= -> _]|Hin]; [lia|].
    apply (in_map fst) in Hin. apply Hh in Hin. simpl in Hin. lia. }
  simpl. destruct (Z.eqb_spec h x) as [->|Hhx].
  - rewrite sends_to_app, sends_to_unique.
    destruct (Z.eqb_spec x s) as [->|Hxs].
    + rewrite walk_absent, app_nil_r.
      * destruct Hin as [[= ->]|Hin]; [reflexivity|].
        apply (in_map fst) in Hin. apply Hh in Hin. simpl in Hin. lia.
      * intros Hin'. apply Hx in Hin'. lia.
    + simpl. apply IH; trivial.
      * destruct Hin as [[= -> _]|Hin]; [contradiction|assumption].
      * destruct Hs as [->|Hs]; [contradiction|assumption].
      * intros k Hk Hks. assert (Hxk : x < k) by now apply Hh.
        destruct (Hlow k) as [->|Hk']; simpl; auto. lia.
  - assert (Hxh : x < h).
    { destruct (Z.eq_dec h s) as [->|Hne].
      - destruct Hs as [->|Hs]; [contradiction|]. now apply Hx.
      - assert (Hh' : In h (x :: socks)) by (apply Hlow; simpl; auto; lia).
        destruct Hh' as [->|Hh']; [contradiction|now apply Hx]. }
    simpl. unfold sent_to at 1. simpl.
    destruct (Z.eqb_spec x s) as [->|Hxs]; [lia|].
    apply IH; trivial.
    + constructor; [assumption|now apply Forall_forall].
    + destruct Hs as [->|Hs]; [contradiction|assumption].
    + intros k Hk Hks. destruct (Hlow k Hk Hks) as [->|Hk']; [|assumption].
      simpl in Hk. destruct Hk as [->|Hk]; [lia|]. apply Hh in Hk. lia.
Qed.



(** ** The dispatch of [broadcast] *)

Lemma broadcast_inv (r r' : Room) (evs : list action) :
  broadcast r = Ok (r', evs) ->
  exists um,
    uniqueMessages (sharedMessage r) (uniqueSenders r) = Ok um /\
    r' = cleared r /\
    evs = PrepareMessage (sharedMessage r)
            :: walk (sharedMessage r) um (sockets r) ++ [FinalizeMessage].
Proof.
  unfold broadcast.
  destruct (uniqueMessages (sharedMessage r) (uniqueSenders r)) as [um|f];
    simpl; [|discriminate].
  intros [= <- <-]. exists um. repeat split.
  now rewrite send_loop_walk.
Qed.

Lemma broadcast_sends (r r' : Room) (evs : list action) (s : socket) :
  broadcast r = Ok (r', evs) ->
  exists um,
    uniqueMessages (sharedMessage r) (uniqueSenders r) = Ok um /\
    sends_to s evs = sends_to s (walk (sharedMessage r) um (sockets r)).
Proof.
  intros H. apply broadcast_inv in H. destruct H as (um & Hum & _ & ->).
  exists um. split; [assumption|].
  unfold sends_to. simpl. rewrite filter_app. simpl. now rewrite app_nil_r.
Qed.

Lemma broadcast_of_uniqueMessages (r : Room) (um : list (socket * bytes)) :
  uniqueMessages (sharedMessage r) (uniqueSenders r) = Ok um ->
  exists evs, broadcast r = Ok (cleared r, evs).
Proof. intros H. unfold broadcast. rewrite H. simpl. eexists. reflexivity. Qed.


Lemma broadcast_cleared (r r' : Room) (evs : list action) :
  broadcast r = Ok (r', evs) -> uniqueSenders r' = [].
Proof.
  intros H. apply broadcast_inv in H. destruct H as (_ & _ & -> & _).
  reflexivity.
Qed.

Lemma uniqueMessages_keys (buffer : bytes) (m : senders)
    (um : list (socket * bytes)) :
  uniqueMessages buffer m = Ok um -> map fst um = keys m.
Proof.
  revert um. induction m as [|[k R] m IH]; simpl; intros um H.
  - now injection H as <-.
  - destruct (reconstruct buffer R) as [msg|f]; simpl in H; [|discriminate].
    destruct (uniqueMessages buffer m) as [rest|f]; simpl in H; [|discriminate].
    injection H as <-. simpl. f_equal. now apply IH.
Qed.

Lemma count_occ_once (l : list socket) (s : socket) :
  NoDup l -> In s l -> count_occ Z.eq_dec l s = 1%nat.
Proof.
  intros Hn Hi. rewrite (NoDup_count_occ Z.eq_dec) in Hn. specialize (Hn s).
  rewrite (count_occ_In Z.eq_dec) in Hi. lia.
Qed.

(** ** The room during a window *)

Section Window.

(** The room on which the window opens: nothing batched. *)
Variable r0 : Room.
Hypothesis opens : window_start r0.

Lemma window_shared (cs : list call) :
  sharedMessage (run cs r0) = payloads cs.
Proof.
  induction cs as [|c cs IH] using rev_ind; [apply opens|].
  rewrite run_snoc, payloads_app.
  destruct c as [ws|k p]; simpl; rewrite IH, ?app_nil_r; reflexivity.
Qed.

Lemma window_keys_sorted (cs : list call) :
  StronglySorted Z.lt (keys (uniqueSenders (run cs r0))).
Proof.
  induction cs as [|c cs IH] using rev_ind.
  - simpl. destruct opens as [_ ->]. constructor.
  - rewrite run_snoc. destruct c as [ws|k p]; simpl; [assumption|].
    now apply push_gap_sorted.
Qed.

Lemma window_keys (cs : list call) (s : socket) :
  In s (keys (uniqueSenders (run cs r0))) <-> In s (publishers cs).
Proof.
  induction cs as [|c cs IH] using rev_ind.
  - simpl. destruct opens as [_ ->]. reflexivity.
  - rewrite run_snoc, publishers_app. rewrite in_app_iff.
    destruct c as [ws|k p]; simpl; [tauto|].
    rewrite keys_push_gap. intuition.
Qed.


(** The index holds, for every sender, the ranges of its payloads. *)
Lemma window_index (cs : list call) (s : socket) :
  size (payloads cs) <= INT_MAX ->
  find_sender s (uniqueSenders (run cs r0)) = entry_of (recorded s cs 0).
Proof.
  revert s. induction cs as [|c cs IH] using rev_ind; intros s Hs.
  - simpl. now destruct opens as [_ ->].
  - rewrite run_snoc, recorded_app. rewrite payloads_app, size_app in Hs.
    pose proof (size_nonneg (payloads cs)) as H1.
    pose proof (size_nonneg (payloads [c])) as H2.
    destruct c as [ws|k p]; simpl.
    + rewrite app_nil_r. apply IH. lia.
    + simpl in Hs, H2. rewrite app_nil_r in Hs, H2.
      rewrite find_sender_push_gap by apply window_keys_sorted.
      rewrite window_shared.
      rewrite !to_int_id by in_range.
      rewrite !IH by lia.
      destruct (k =? s) eqn:E.
      * apply Z.eqb_eq in E. subst k.
        destruct (recorded s cs 0) as [|g R]; reflexivity.
      * now rewrite app_nil_r.
Qed.

Section Fitting.

(** The calls of a window that fits an [int]. *)
Variable cs : list call.
Hypothesis window_fits : size (payloads cs) <= INT_MAX.

Lemma window_entry (s : socket) (R : list Gap.t) :
  In (s, R) (uniqueSenders (run cs r0)) ->
  R = recorded s cs 0 /\ R <> [].
Proof.
  intros H.
  apply In_find_sender in H; [|apply window_keys_sorted].
  rewrite window_index in H by assumption.
  destruct (recorded s cs 0) as [|g R']; simpl in H; [discriminate|].
  injection H as <-. split; [reflexivity|discriminate].
Qed.

(** Every entry of the index is fit for the first loop. *)
Lemma window_entries_ordered :
  Forall (fun kv => snd kv <> [] /\
                    ordered_from 0 (snd kv) (size (payloads cs)))
    (uniqueSenders (run cs r0)).
Proof.
  apply Forall_forall. intros [s R] H.
  apply window_entry in H. destruct H as [-> Hne].
  split; [assumption|]. apply (recorded_ordered s cs 0).
Qed.

Lemma window_uniqueMessages :
  uniqueMessages (sharedMessage (run cs r0)) (uniqueSenders (run cs r0))
  = Ok (map (fun kv => (fst kv, remove_ranges (payloads cs) (snd kv)))
          (uniqueSenders (run cs r0))).
Proof.
  rewrite window_shared.
  apply uniqueMessages_removes; [assumption|].
  apply window_entries_ordered.
Qed.

Lemma window_broadcast :
  exists evs, broadcast (run cs r0) = Ok (cleared (run cs r0), evs).
Proof.
  eapply broadcast_of_uniqueMessages. apply window_uniqueMessages.
Qed.


(** A subscriber listed once is served what it is due as soon as it is
    a listener, or a sender that every smaller sender lets the cursor
    reach. *)
Lemma window_dispatch (s : socket) :
  Sorted Z.le (sockets r0) ->
  NoDup (sockets (run cs r0)) -> In s (sockets (run cs r0)) ->
  (find_sender s (uniqueSenders (run cs r0)) = None \/
   forall k, In k (keys (uniqueSenders (run cs r0))) -> k < s ->
             In k (sockets (run cs r0))) ->
  forall r' evs, broadcast (run cs r0) = Ok (r', evs) ->
  sends_to s evs = due (run cs r0) s.
Proof.
  intros Hso Hn Hi Hc r' evs Hb.
  destruct (broadcast_sends _ _ _ s Hb) as (um & Hum & ->).
  unfold due.
  pose proof (window_keys_sorted cs) as Hk.
  pose proof (uniqueMessages_keys _ _ _ Hum) as Hkeys.
  destruct (find_sender s (uniqueSenders (run cs r0))) as [R|] eqn:E.
  - destruct Hc as [Hc|Hc]; [discriminate|].
    rewrite window_uniqueMessages in Hum. injection Hum as <-.
    rewrite window_shared.
    apply walk_sender.
    + apply sorted_nodup_strict; [now apply run_sockets_sorted|assumption].
    + now rewrite Hkeys.
    + apply find_sender_In in E.
      apply (in_map (fun kv => (fst kv, remove_ranges (payloads cs) (snd kv))))
        in E.
      exact E.
    + assumption.
    + rewrite Hkeys. assumption.
  - rewrite walk_listener.
    + now rewrite count_occ_once.
    + rewrite Hkeys. now apply find_sender_absent.
Qed.

End Fitting.

End Window.

Lemma defaultRoom_window_start : window_start defaultRoom.
Proof. split; reflexivity. Qed.


(** ** A socket listed once, among sockets listed more than once *)




(** ** Messages whose length does not fit an [int] *)

Lemma size_two_gib : size two_gib = 2 ^ 31.
Proof.
  unfold two_gib, size. rewrite repeat_length. apply Z2Nat.id. lia.
Qed.


Lemma to_int_wraps_to_min : to_int (2 ^ 31) = INT_MIN.
Proof. reflexivity. Qed.



(** A message of [2 ^ 31] bytes: its length, as an [int], is [INT_MIN], and
    the first loop ends on the exception of [substr]. *)
Lemma wrapped_length_faults (m : bytes) :
  size m = 2 ^ 31 ->
  let cs := [Subscribe 1; Publish 1 m] in
  let r := run cs defaultRoom in
  at_main [1] r /\
  uniqueSenders r = [(1, [Gap.make 0 INT_MIN])] /\
  reconstruct (sharedMessage r) [Gap.make 0 INT_MIN] = Fail OutOfRange /\
  broadcast r = Fail OutOfRange /\
  ~ exclusion_correct defaultRoom cs.
Proof.
  intros Hm cs r.
  assert (Hidx : uniqueSenders r = [(1, [Gap.make 0 INT_MIN])]).
  { subst r cs. unfold run, fold_left, run_call, publish, addSubscriber.
    cbn [uniqueSenders sharedMessage defaultRoom push_gap app].
    rewrite Hm, to_int_wraps_to_min. reflexivity. }
  assert (Hsh : sharedMessage r = m) by reflexivity.
  assert (Hrec : reconstruct m [Gap.make 0 INT_MIN] = Fail OutOfRange).
  { assert (S1 : substr m 0 (to_size_t (Gap.start (Gap.make 0 INT_MIN))) = Ok []).
    { unfold substr. rewrite Hm. reflexivity. }
    assert (S2 : substr m (to_size_t (to_int (0 + INT_MIN))) npos
                 = Fail OutOfRange).
    { unfold substr. rewrite Hm. reflexivity. }
    unfold reconstruct, at_index. cbn [nth_error bind]. rewrite S1.
    cbn [bind tl gap_loop Gap.start Gap.length]. rewrite S2. reflexivity. }
  split; [|split; [exact Hidx|split; [now rewrite Hsh|split]]].
  - subst r cs.
    apply (main_message [1] (fst (onConnection 1 defaultRoom)) 1 m); [|now left].
    apply (main_connection [] defaultRoom 1); [constructor|intros []].
  - unfold broadcast. rewrite Hidx, Hsh. unfold uniqueMessages.
    rewrite Hrec. reflexivity.
  - intros H. destruct (H 1 [Gap.make 0 INT_MIN]) as [H1 _].
    + fold r. rewrite Hidx. now left.
    + fold r in H1. rewrite Hsh, Hrec in H1. discriminate.
Qed.


(** * The claims *)

(** ** Completeness and exclusion *)

(** C1 (completeness).  In a window opened on a room with nothing batched,
    the shared message is the concatenation of the published payloads in
    publish order, and a broadcast sends exactly that, as the prepared
    message, to a socket without entry in the index of unique senders: once
    per entry of the socket in the list, and nothing else.  The broadcast
    does return as soon as the window fits an [int]. *)
Theorem C1_completeness (r0 : Room) (cs : list call) (s : socket) :
  window_start r0 ->
  ~ In s (keys (uniqueSenders (run cs r0))) ->
  sharedMessage (run cs r0) = payloads cs /\
  (forall r' evs, broadcast (run cs r0) = Ok (r', evs) ->
     sends_to s evs
     = repeat (SendPrepared s (payloads cs))
         (count_occ Z.eq_dec (sockets (run cs r0)) s)) /\
  (size (payloads cs) <= INT_MAX ->
   exists r' evs, broadcast (run cs r0) = Ok (r', evs)).
Proof.
  intros Hw Hk. split; [now apply window_shared|]. split.
  - intros r' evs Hb.
    destruct (broadcast_sends _ _ _ s Hb) as (um & Hum & ->).
    rewrite (window_shared r0 Hw cs). apply walk_listener.
    now rewrite (uniqueMessages_keys _ _ _ Hum).
  - intros Hs. destruct (window_broadcast r0 Hw cs Hs) as [evs E]. eauto.
Qed.

Lemma C1_completeness_witness :
  exists r' evs,
    broadcast scenario = Ok (r', evs) /\
    sends_to 3 evs = [SendPrepared 3 (B "helloworld")].
Proof.
  destruct (C1_completeness defaultRoom scenario_calls 3
              defaultRoom_window_start) as (_ & Hsend & Hret).
  - simpl. intros [H|[H|[]]]; discriminate.
  - destruct Hret as (r' & evs & E); [vm_compute; discriminate|].
    exists r', evs. split; [exact E|]. rewrite (Hsend r' evs E). reflexivity.
Defined.

(** C2 (exclusion correctness), as the code has it.  In a window that fits
    an [int], broadcast computes one message per sender of the index; for a
    sender [s] with ranges [R] (the ranges of the payloads of [s] in the
    shared message), that message is the shared message with every range of
    [R] removed, which is the concatenation of the segments before, between
    and after the ranges, and it is empty iff [R] covers the whole shared
    message. *)
Theorem C2_exclusion_correctness (r0 : Room) (cs : list call) :
  window_start r0 ->
  size (payloads cs) <= INT_MAX ->
  let r := run cs r0 in
  uniqueMessages (sharedMessage r) (uniqueSenders r)
  = Ok (map (fun kv => (fst kv, remove_ranges (sharedMessage r) (snd kv)))
          (uniqueSenders r)) /\
  forall s R, In (s, R) (uniqueSenders r) ->
    R = recorded s cs 0 /\
    reconstruct (sharedMessage r) R = Ok (remove_ranges (sharedMessage r) R) /\
    remove_ranges (sharedMessage r) R = segments (sharedMessage r) R /\
    (remove_ranges (sharedMessage r) R = [] <-> covers_all (sharedMessage r) R).
Proof.
  intros Hw Hs r. subst r. split.
  - rewrite window_uniqueMessages by assumption.
    now rewrite (window_shared r0 Hw cs).
  - intros s R H. rewrite (window_shared r0 Hw cs).
    pose proof (window_entries_ordered r0 Hw cs Hs) as Hall.
    rewrite Forall_forall in Hall. destruct (Hall _ H) as [Hne Hord].
    simpl in Hne, Hord.
    apply (window_entry r0 Hw cs Hs) in H. destruct H as [HR _].
    split; [assumption|]. split; [now apply reconstruct_removes|].
    split; [symmetry; now apply segments_remove_ranges|].
    apply remove_ranges_nil_iff.
Qed.

Lemma C2_exclusion_correctness_witness :
  uniqueMessages (sharedMessage scenario) (uniqueSenders scenario)
  = Ok [(1, B "world"); (2, B "hello")].
Proof.
  destruct (C2_exclusion_correctness defaultRoom scenario_calls
              defaultRoom_window_start) as [H _].
  - vm_compute. discriminate.
  - exact H.
Defined.

(** The claim C2 fails on a window that does not fit an [int]: [start] and
    [length] of a gap are [int].  Socket 1 connects and sends one message
    of [2 ^ 31] bytes.  Its length is recorded as [INT_MIN], so [lastStop]
    is negative behind the only gap, the closing [substr(lastStop)] gets a
    position past the end and throws: the broadcast computes no message for
    the sender, where the claim has the empty one. *)
Lemma C2_wrapped_length_counterexample :
  let cs := [Subscribe 1; Publish 1 two_gib] in
  let r := run cs defaultRoom in
  at_main [1] r /\
  uniqueSenders r = [(1, [Gap.make 0 INT_MIN])] /\
  reconstruct (sharedMessage r) [Gap.make 0 INT_MIN] = Fail OutOfRange /\
  broadcast r = Fail OutOfRange /\
  ~ exclusion_correct defaultRoom cs.
Proof. exact (wrapped_length_faults two_gib size_two_gib). Qed.

(** ** Self-echo and senders that are not subscribed *)




(** On a socket that is listed twice the case of C3 does not apply.  Socket
    1 is subscribed twice and publishes "a".  Its first entry in the list
    meets its unique message, which is empty, so nothing is sent; the cursor
    has moved on when its second entry comes, and that entry is sent the
    prepared message "a". *)
Example self_echo_listed_twice :
  ~ no_self_echo defaultRoom listed_twice.
Proof.
  intros H.
  specialize (H _ _ 1 (SendPrepared 1 (B "a")) eq_refl).
  simpl in H. discriminate H; auto.
Qed.

(** Nor does it apply behind a sender that is not subscribed.  Socket 2 is
    subscribed, socket 1 is not; 1 publishes "a", then 2 publishes "b".
    The cursor of the second loop stays on the unique message of 1, which no
    socket of the list matches, so the sender 2 is sent the prepared message
    "ab" instead of "a". *)
Example self_echo_behind_stranger :
  broadcast (run stranger_first defaultRoom)
  = Ok (cleared (run stranger_first defaultRoom),
        [PrepareMessage (B "ab"); SendPrepared 2 (B "ab"); FinalizeMessage]) /\
  In 2 (publishers stranger_first) /\
  others 2 stranger_first = B "a" /\
  ~ no_self_echo defaultRoom stranger_first.
Proof.
  split; [reflexivity|]. split; [simpl; auto|]. split; [reflexivity|].
  intros H.
  specialize (H _ _ 2 (SendPrepared 2 (B "ab")) eq_refl).
  simpl in H. discriminate H; auto.
Qed.




(** ** Subscribing *)

(** C5 (subscribe), as the code has it.  [addSubscriber] has no test for an
    id that is already listed: every call adds one entry for the id and
    sorts the list.  The list after the call is the sorted arrangement of
    the list before plus the id, the id is listed once more than before, and
    nothing else in the room changes; a list without duplicates stays so
    when the id is new. *)
Theorem C5_addSubscriber_adds_one (ws : socket) (r : Room) :
  let r' := addSubscriber ws r in
  Permutation (ws :: sockets r) (sockets r') /\
  Sorted Z.le (sockets r') /\
  count_occ Z.eq_dec (sockets r') ws = S (count_occ Z.eq_dec (sockets r) ws) /\
  (NoDup (sockets r) -> ~ In ws (sockets r) -> NoDup (sockets r')) /\
  uniqueSenders r' = uniqueSenders r /\
  sharedMessage r' = sharedMessage r /\
  gotPubsThisIteration r' = gotPubsThisIteration r /\
  batched r' = batched r.
Proof.
  simpl.
  assert (Hp : Permutation (ws :: sockets r) (sort (sockets r ++ [ws]))).
  { rewrite <- sort_perm. apply Permutation_cons_append. }
  split; [exact Hp|]. split; [apply sort_sorted|]. split; [|split].
  - pose proof (proj1 (Permutation_count_occ Z.eq_dec _ _) Hp ws) as Hc.
    rewrite <- Hc. simpl. now destruct (Z.eq_dec ws ws).
  - intros Hn Hi. apply (Permutation_NoDup Hp). now constructor.
  - repeat split.
Qed.

Lemma C5_addSubscriber_adds_one_witness :
  sockets (addSubscriber 1 (addSubscriber 2 defaultRoom)) = [1; 2] /\
  NoDup (sockets (addSubscriber 1 (addSubscriber 2 defaultRoom))).
Proof.
  split; [reflexivity|].
  apply (C5_addSubscriber_adds_one 1 (addSubscriber 2 defaultRoom)).
  - simpl. repeat constructor. intros [].
  - simpl. intros [H|[]]. discriminate H.
Defined.

(** The claim C5 fails on an id that is already subscribed: the id is listed
    twice afterwards. *)
Lemma C5_duplicate_counterexample :
  sockets (addSubscriber 1 (addSubscriber 1 defaultRoom))
  <> sockets (addSubscriber 1 defaultRoom).
Proof. simpl. discriminate. Qed.

(** ** The window controller *)

(** C6 (nothing batched), as the code has it.  The test on [batched] is in
    the check callback, the caller of [broadcast]: with [batched = 0] the
    callback emits no action and leaves the room as it is.  [broadcast]
    itself makes no such test; called on a room with nothing batched it
    returns and leaves the room as it is, after sending the empty prepared
    message to every entry of the socket list. *)
Theorem C6_check_without_batch (r : Room) :
  batched r = 0 ->
  check_cb r = Ok (r, []) /\
  (window_start r ->
   exists evs,
     broadcast r = Ok (r, evs) /\
     forall s, sends_to s evs
               = repeat (SendPrepared s []) (count_occ Z.eq_dec (sockets r) s)).
Proof.
  intros Hb. split.
  - unfold check_cb. now rewrite Hb.
  - intros [Hs Hm]. destruct r as [m b socks got n]. simpl in *. subst.
    eexists. split; [reflexivity|].
    intros s. rewrite send_loop_walk. simpl skipn.
    unfold sends_to. simpl. rewrite filter_app. simpl. rewrite app_nil_r.
    now apply walk_listener.
Qed.

Lemma C6_check_without_batch_witness :
  check_cb (addSubscriber 1 defaultRoom) = Ok (addSubscriber 1 defaultRoom, []).
Proof.
  destruct (C6_check_without_batch (addSubscriber 1 defaultRoom)) as [H _].
  - reflexivity.
  - exact H.
Defined.

(** The claim C6 fails for [broadcast] itself: with one subscriber and
    nothing batched, it sends the empty prepared message to the
    subscriber. *)
Lemma C6_idle_broadcast_counterexample :
  ~ idle_broadcast_silent (addSubscriber 1 defaultRoom).
Proof.
  intros H. destruct (H _ _ eq_refl) as [_ H1].
  specialize (H1 1). discriminate H1.
Qed.





(** ** The ranges of a sender *)

Lemma StronglySorted_weaken {A : Type} (P P' : A -> A -> Prop) (Q : A -> Prop)
    (l : list A) :
  (forall a b, Q a -> P a b -> P' a b) ->
  Forall Q l -> StronglySorted P l -> StronglySorted P' l.
Proof.
  intros Himp Hq Hs. induction Hs as [|a l Hs IH Ha]; [constructor|].
  inversion Hq as [|? ? Hqa Hql]; subst.
  constructor; [now apply IH|].
  rewrite Forall_forall in *. intros b Hb. apply Himp; auto.
Qed.

Lemma ordered_from_shape (R : list Gap.t) (lo hi : Z) :
  ordered_from lo R hi ->
  Forall (fun g => lo <= Gap.start g /\ 0 <= Gap.length g /\ gap_end g <= hi) R /\
  non_overlapping R.
Proof.
  revert lo. induction R as [|g R IH]; intros lo H.
  - split; constructor.
  - destruct H as (H1 & H2 & H3).
    pose proof (ordered_from_bounds _ _ _ H3) as He.
    destruct (IH _ H3) as [Hall Hno]. split.
    + constructor; [repeat split; trivial|].
      apply Forall_impl with (2 := Hall). intros a (Ha1 & Ha2 & Ha3).
      repeat split; in_range.
    + constructor; [assumption|].
      apply Forall_impl with (2 := Hall). intros a (Ha1 & _). exact Ha1.
Qed.

(** C7 (the ranges of a sender), as the code has it.  In a window opened on
    a room with nothing batched and fitting an [int], the ranges held for
    each sender are sorted by start (strictly behind a range that is not
    empty; two empty payloads share their start), no range reaches into a
    later one, and every range has [start >= 0], [length >= 0] and
    [start + length <= len(sharedMessage)].  A publish keeps this: it puts
    the range [{len(sharedMessage), len(message)}], taken before the append,
    at the end of the sender's ranges. *)
Theorem C7_gaps_invariant (r0 : Room) (cs : list call) :
  window_start r0 ->
  size (payloads cs) <= INT_MAX ->
  let r := run cs r0 in
  gaps_invariant r /\
  forall sender message,
    size (sharedMessage r) + size message <= INT_MAX ->
    sharedMessage (publish sender message r) = sharedMessage r ++ message /\
    find_sender sender (uniqueSenders (publish sender message r))
    = Some (match find_sender sender (uniqueSenders r) with
            | Some R => R
            | None => []
            end ++ [Gap.make (size (sharedMessage r)) (size message)]).
Proof.
  intros Hw Hs r. subst r. split.
  - intros s R H. rewrite (window_shared r0 Hw cs).
    apply (window_entry r0 Hw cs Hs) in H. destruct H as [-> _].
    pose proof (recorded_ordered s cs 0) as Hord. simpl in Hord.
    apply ordered_from_shape in Hord. destruct Hord as [Hall Hno].
    assert (Hlen : Forall (fun g => 0 <= Gap.length g) (recorded s cs 0)).
    { apply Forall_impl with (2 := Hall). tauto. }
    split; [|split; [|split; [exact Hno|]]].
    + refine (StronglySorted_weaken _ _ _ _ _ Hlen Hno).
      simpl. intros a b Ha Hab. lia.
    + refine (StronglySorted_weaken _ _ _ _ _ Hlen Hno).
      simpl. intros a b Ha Hab Hpos. lia.
    + apply Forall_impl with (2 := Hall). unfold in_buffer, gap_end. tauto.
  - intros sender message Hm. split; [reflexivity|].
    pose proof (size_nonneg (sharedMessage (run cs r0))).
    pose proof (size_nonneg message).
    simpl. rewrite find_sender_push_gap by now apply window_keys_sorted.
    rewrite Z.eqb_refl.
    rewrite !to_int_id by in_range.
    now destruct (find_sender sender (uniqueSenders (run cs r0))).
Qed.

Lemma C7_gaps_invariant_witness : gaps_invariant scenario.
Proof.
  destruct (C7_gaps_invariant defaultRoom scenario_calls
              defaultRoom_window_start) as [H _].
  - vm_compute. discriminate.
  - exact H.
Defined.

(** The claim C7 fails on empty payloads: two empty messages of one sender
    give two ranges with the same start. *)
Lemma C7_empty_payload_counterexample :
  ~ gaps_invariant_strict (run [Publish 1 []; Publish 1 []] defaultRoom).
Proof.
  intros H. destruct (H 1 [Gap.make 0 0; Gap.make 0 0]) as [Hs _].
  - simpl. now left.
  - apply StronglySorted_inv in Hs. destruct Hs as [_ Hs].
    inversion Hs as [|? ? Hlt _]; subst. simpl in Hlt. lia.
Qed.

(** ** The edge cases of the reconstruction *)

(** C9 (edge cases), as the code has it.  The reconstruction reads the first
    gap before anything else, so an empty list of gaps is a read past the
    end of the vector, not the buffer unchanged; with a single gap spanning
    a buffer that fits an [int] the result is empty. *)
Theorem C9_reconstruct_edges (buffer : bytes) :
  reconstruct buffer [] = Fail OutOfBounds /\
  (size buffer <= INT_MAX ->
   reconstruct buffer [Gap.make 0 (size buffer)] = Ok []).
Proof.
  split; [reflexivity|]. intros Hs. pose proof (size_nonneg buffer).
  rewrite reconstruct_removes; trivial.
  - f_equal. apply remove_ranges_nil_iff. intros j Hj.
    rewrite covered_cons. unfold gap_end. simpl.
    apply orb_true_iff. left. apply andb_true_iff.
    split; [apply Z.leb_le|apply Z.ltb_lt]; lia.
  - discriminate.
  - simpl. unfold gap_end; simpl. lia.
Qed.

Lemma C9_reconstruct_edges_witness :
  reconstruct (B "hello") [Gap.make 0 5] = Ok [].
Proof.
  destruct (C9_reconstruct_edges (B "hello")) as [_ H].
  apply H. vm_compute. discriminate.
Defined.

(** The claim C9 fails on the empty list of gaps: the buffer does not come
    back, the first gap is read out of bounds. *)
Lemma C9_empty_gaps_counterexample :
  reconstruct (B "abc") [] <> Ok (B "abc").
Proof. simpl. discriminate. Qed.

(** ** No empty entry in the index *)

Lemma push_gap_nonempty (k : socket) (g : Gap.t) (m : senders) :
  all_entries_nonempty m -> all_entries_nonempty (push_gap k g m).
Proof.
  unfold all_entries_nonempty.
  induction m as [|[k0 v0] m IH]; simpl; intros H.
  - repeat constructor. discriminate.
  - inversion H as [|? ? H0 Hm]; subst.
    destruct (k <? k0); [constructor; [discriminate|assumption]|].
    destruct (k =? k0); constructor; auto.
    simpl. intros E. apply app_eq_nil in E. destruct E as [_ E]. discriminate.
Qed.

Lemma step_nonempty (r r' : Room) :
  step r r' -> all_entries_nonempty (uniqueSenders r) ->
  all_entries_nonempty (uniqueSenders r').
Proof.
  intros Hstep H. destruct Hstep as [r ws|r k p|r r' evs Hb|r|r r' evs Hc].
  - exact H.
  - simpl. now apply push_gap_nonempty.
  - rewrite (broadcast_cleared _ _ _ Hb). constructor.
  - unfold prepare_cb. now destruct (batched r =? 0).
  - unfold check_cb in Hc.
    destruct (negb (batched r =? 0) && negb (gotPubsThisIteration r)).
    + rewrite (broadcast_cleared _ _ _ Hc). constructor.
    + now injection Hc as <- _.
Qed.

Lemma reachable_nonempty (r : Room) :
  reachable r -> all_entries_nonempty (uniqueSenders r).
Proof.
  induction 1 as [|r r' _ IH Hstep]; [constructor|].
  now apply (step_nonempty r r').
Qed.

Lemma substr_fault (s : bytes) (pos n : Z) (f : fault) :
  substr s pos n = Fail f -> f = OutOfRange.
Proof.
  unfold substr. destruct (size s <? pos); [|discriminate]. now intros [= <-].
Qed.

Lemma gap_loop_fault (buffer : bytes) (rest : list Gap.t) (lastStop : Z)
    (msg : bytes) (f : fault) :
  gap_loop buffer rest lastStop msg = Fail f -> f = OutOfRange.
Proof.
  revert lastStop msg. induction rest as [|g rest IH]; intros lastStop msg; simpl.
  - destruct (substr buffer (to_size_t lastStop) npos) as [seg|f'] eqn:E;
      simpl; [discriminate|].
    intros [= <-]. now apply substr_fault in E.
  - destruct (substr buffer (to_size_t lastStop)
                (to_size_t (to_int (Gap.start g - lastStop)))) as [seg|f'] eqn:E;
      simpl; [apply IH|].
    intros [= <-]. now apply substr_fault in E.
Qed.

Lemma reconstruct_fault (buffer : bytes) (R : list Gap.t) (f : fault) :
  R <> [] -> reconstruct buffer R = Fail f -> f = OutOfRange.
Proof.
  intros Hne. destruct R as [|g R]; [contradiction|].
  unfold reconstruct. simpl.
  destruct (substr buffer 0 (to_size_t (Gap.start g))) as [seg|f'] eqn:E; simpl.
  - apply gap_loop_fault.
  - intros [= <-]. now apply substr_fault in E.
Qed.

Lemma uniqueMessages_fault (buffer : bytes) (m : senders) (f : fault) :
  all_entries_nonempty m -> uniqueMessages buffer m = Fail f -> f = OutOfRange.
Proof.
  intros H. induction H as [|[k R] m Hne _ IH]; simpl; [discriminate|].
  destruct (reconstruct buffer R) as [msg|f'] eqn:E; simpl.
  - destruct (uniqueMessages buffer m) as [rest|f'']; simpl; [discriminate|].
    intros [= <-]. now apply IH.
  - intros [= <-]. now apply (reconstruct_fault buffer R).
Qed.

(** C10 (no empty entry).  In every room reached from the default room by
    subscribing, publishing, broadcasting and the two loop callbacks, every
    sender in the index has at least one gap; so the read of the first gap
    in the first loop of [broadcast] finds it, and neither the loop nor the
    broadcast ends on an access out of bounds. *)
Theorem C10_entries_nonempty (r : Room) :
  reachable r ->
  (forall s R, In (s, R) (uniqueSenders r) ->
     R <> [] /\ exists g0, at_index R 0 = Ok g0) /\
  uniqueMessages (sharedMessage r) (uniqueSenders r) <> Fail OutOfBounds /\
  broadcast r <> Fail OutOfBounds.
Proof.
  intros Hr. pose proof (reachable_nonempty r Hr) as H.
  split; [|split].
  - intros s R Hin. unfold all_entries_nonempty in H.
    rewrite Forall_forall in H. specialize (H _ Hin). simpl in H.
    split; [assumption|]. destruct R as [|g R]; [contradiction|].
    exists g. reflexivity.
  - intros E. apply uniqueMessages_fault in E; [discriminate|assumption].
  - unfold broadcast.
    destruct (uniqueMessages (sharedMessage r) (uniqueSenders r)) as [um|f] eqn:E;
      simpl; [discriminate|].
    intros [= ->]. apply uniqueMessages_fault in E; [discriminate|assumption].
Qed.

Lemma C10_entries_nonempty_witness :
  uniqueMessages (sharedMessage scenario) (uniqueSenders scenario)
  <> Fail OutOfBounds.
Proof.
  apply (C10_entries_nonempty scenario).
  unfold scenario, scenario_calls, run. simpl fold_left.
  repeat (eapply reach_step;
          [|first [apply step_publish | apply step_subscribe]]).
  apply reach_default.
Defined.

(** * Further properties of the code *)

(** ** The shape of a dispatch *)

Lemma walk_shape (prepared : bytes) (ahead : list (socket * bytes))
    (socks : list socket) :
  subseq (targets (walk prepared ahead socks)) socks /\
  List.length (targets (walk prepared ahead socks))
  = List.length (walk prepared ahead socks) /\
  Forall (fun a => match a with
                   | SendPrepared _ p => p = prepared
                   | Send s msg => msg <> [] /\ In (s, msg) ahead
                   | _ => False
                   end) (walk prepared ahead socks).
Proof.
  revert ahead. induction socks as [|s socks IH]; intros ahead.
  - simpl. repeat split; constructor.
  - simpl. destruct ahead as [|[h msg] ahead'].
    + destruct (IH []) as (H1 & H2 & H3). simpl.
      repeat split; [now constructor|now rewrite H2|now constructor].
    + destruct (Z.eqb_spec h s) as [->|Hne].
      * destruct (IH ahead') as (H1 & H2 & H3).
        assert (H3' : Forall (fun a => match a with
                                       | SendPrepared _ p => p = prepared
                                       | Send s0 m => m <> [] /\ In (s0, m) ((s, msg) :: ahead')
                                       | _ => False
                                       end) (walk prepared ahead' socks)).
        { apply Forall_impl with (2 := H3). intros [p|s0 m|s0 p| |ms]; simpl; tauto. }
        destruct (Z.eqb_spec (size msg) 0) as [E|E]; simpl.
        -- repeat split; [now constructor|assumption|assumption].
        -- repeat split; [now constructor|now rewrite H2|].
           constructor; [|assumption]. split; [|now left].
           intros ->. now apply E.
      * destruct (IH ((h, msg) :: ahead')) as (H1 & H2 & H3). simpl.
        repeat split; [now constructor|now rewrite H2|now constructor].
Qed.

Lemma subseq_length {A : Type} (l1 l2 : list A) :
  subseq l1 l2 -> (List.length l1 <= List.length l2)%nat.
Proof. induction 1; simpl; lia. Qed.

(** X1 (the shape of a dispatch).  A broadcast that returns has prepared the
    shared message, sent, and finalized, in this order.  The sends go to
    sockets of the list, in the order of the list and at most one per
    entry; a prepared send carries the shared message, and a send of a
    unique message goes to a sender of the index and is never empty. *)
Theorem X1_dispatch_shape (r r' : Room) (evs : list action) :
  broadcast r = Ok (r', evs) ->
  exists sends,
    evs = PrepareMessage (sharedMessage r) :: sends ++ [FinalizeMessage] /\
    List.length (targets sends) = List.length sends /\
    subseq (targets sends) (sockets r) /\
    (List.length sends <= List.length (sockets r))%nat /\
    Forall (fun a => match a with
                     | SendPrepared _ p => p = sharedMessage r
                     | Send s msg => msg <> [] /\ In s (keys (uniqueSenders r))
                     | _ => False
                     end) sends.
Proof.
  intros H. apply broadcast_inv in H. destruct H as (um & Hum & _ & ->).
  destruct (walk_shape (sharedMessage r) um (sockets r)) as (H1 & H2 & H3).
  exists (walk (sharedMessage r) um (sockets r)).
  split; [reflexivity|]. split; [assumption|]. split; [assumption|]. split.
  - rewrite <- H2. now apply subseq_length.
  - apply Forall_impl with (2 := H3).
    intros [p|s m|s p| |ms]; simpl; trivial. intros [Hm Hin].
    split; [assumption|]. rewrite <- (uniqueMessages_keys _ _ _ Hum).
    apply (in_map fst) in Hin. exact Hin.
Qed.

Lemma X1_dispatch_shape_witness :
  exists sends,
    [PrepareMessage (B "helloworld"); Send 1 (B "world"); Send 2 (B "hello");
     SendPrepared 3 (B "helloworld"); FinalizeMessage]
    = PrepareMessage (sharedMessage scenario) :: sends ++ [FinalizeMessage] /\
    subseq (targets sends) (sockets scenario).
Proof.
  destruct (X1_dispatch_shape scenario (cleared scenario)
              [PrepareMessage (B "helloworld"); Send 1 (B "world");
               Send 2 (B "hello"); SendPrepared 3 (B "helloworld");
               FinalizeMessage])
    as (sends & E & _ & Hsub & _).
  - reflexivity.
  - exists sends. split; assumption.
Defined.

(** ** One window after the other *)

(** X2 (windows do not leak).  After a broadcast that returns, nothing of
    the batch is left and the sockets are as they were; whatever is
    published next makes up the next shared message on its own, its senders
    are the keys of the index, and the next broadcast prepares exactly
    that. *)
Theorem X2_windows_do_not_leak (r r' : Room) (evs : list action)
    (cs : list call) :
  broadcast r = Ok (r', evs) ->
  sockets r' = sockets r /\ batched r' = 0 /\
  sharedMessage r' = [] /\ uniqueSenders r' = [] /\
  sharedMessage (run cs r') = payloads cs /\
  (forall s, In s (keys (uniqueSenders (run cs r'))) <-> In s (publishers cs)) /\
  (forall r'' evs', broadcast (run cs r') = Ok (r'', evs') ->
     exists sends,
       evs' = PrepareMessage (payloads cs) :: sends ++ [FinalizeMessage]).
Proof.
  intros H. apply broadcast_inv in H. destruct H as (um & _ & -> & _).
  assert (Hw : window_start (cleared r)) by (split; reflexivity).
  repeat split; try reflexivity.
  - now apply window_shared.
  - now apply (window_keys (cleared r) Hw cs s).
  - now apply (window_keys (cleared r) Hw cs s).
  - intros r'' evs' H. apply broadcast_inv in H.
    destruct H as (um' & _ & _ & ->). rewrite (window_shared _ Hw cs). eauto.
Qed.

Lemma X2_windows_do_not_leak_witness :
  sharedMessage (run then_y (cleared (run first_x defaultRoom))) = B "y".
Proof.
  destruct (X2_windows_do_not_leak (run first_x defaultRoom) _ _ then_y eq_refl)
    as (_ & _ & _ & _ & E & _).
  exact E.
Defined.

(** ** The count of batched publications *)

Lemma to_int_succ (z : Z) : to_int (to_int z + 1) = to_int (z + 1).
Proof.
  unfold to_int.
  replace ((z + 2 ^ 31) mod 2 ^ 32 - 2 ^ 31 + 1 + 2 ^ 31)
    with ((z + 2 ^ 31) mod 2 ^ 32 + 1) by lia.
  rewrite Zplus_mod_idemp_l. f_equal. f_equal. lia.
Qed.

Lemma total_gaps_push_gap (k : socket) (g : Gap.t) (m : senders) :
  total_gaps (push_gap k g m) = S (total_gaps m).
Proof.
  induction m as [|[k0 v0] m IH]; simpl; [reflexivity|].
  destruct (k <? k0); simpl; [reflexivity|].
  destruct (k =? k0); simpl.
  - rewrite length_app. simpl. lia.
  - rewrite IH. lia.
Qed.

Lemma step_counts (r r' : Room) :
  step r r' ->
  batched r = to_int (Z.of_nat (total_gaps (uniqueSenders r))) ->
  batched r' = to_int (Z.of_nat (total_gaps (uniqueSenders r'))).
Proof.
  intros Hstep H. destruct Hstep as [r ws|r k p|r r' evs Hb|r|r r' evs Hc].
  - exact H.
  - simpl. rewrite total_gaps_push_gap, H, to_int_succ. f_equal. lia.
  - apply broadcast_inv in Hb. destruct Hb as (_ & _ & -> & _). reflexivity.
  - unfold prepare_cb. now destruct (batched r =? 0).
  - unfold check_cb in Hc.
    destruct (negb (batched r =? 0) && negb (gotPubsThisIteration r)).
    + apply broadcast_inv in Hc. destruct Hc as (_ & _ & -> & _). reflexivity.
    + now injection Hc as <- _.
Qed.

Lemma total_gaps_zero (m : senders) :
  all_entries_nonempty m -> total_gaps m = 0%nat -> m = [].
Proof.
  intros H E. destruct H as [|[k v] m Hv _]; [reflexivity|].
  simpl in *. destruct v; [contradiction|simpl in E; lia].
Qed.

(** X3 (the count of batched publications).  In every room reached from the
    default room, [batched] is the number of gaps recorded since the last
    broadcast, as an [int]; so, below [INT_MAX] publications in the window,
    [batched] is zero exactly when the index is empty. *)
Theorem X3_batched_counts_gaps (r : Room) :
  reachable r ->
  batched r = to_int (Z.of_nat (total_gaps (uniqueSenders r))) /\
  (Z.of_nat (total_gaps (uniqueSenders r)) <= INT_MAX ->
   batched r = Z.of_nat (total_gaps (uniqueSenders r)) /\
   (batched r = 0 <-> uniqueSenders r = [])).
Proof.
  intros Hr.
  assert (H : batched r = to_int (Z.of_nat (total_gaps (uniqueSenders r)))).
  { induction Hr as [|r r' _ IH Hstep]; [reflexivity|].
    now apply (step_counts r r'). }
  split; [exact H|]. intros Hn.
  rewrite to_int_id in H by in_range. split; [exact H|]. split.
  - intros E. apply total_gaps_zero; [now apply reachable_nonempty|lia].
  - intros E. rewrite H, E. reflexivity.
Qed.

Lemma scenario_reachable : reachable scenario.
Proof.
  unfold scenario, scenario_calls, run. simpl fold_left.
  repeat (eapply reach_step;
          [|first [apply step_publish | apply step_subscribe]]).
  apply reach_default.
Qed.

Lemma X3_batched_counts_gaps_witness : batched scenario = 2.
Proof.
  destruct (X3_batched_counts_gaps scenario scenario_reachable) as [_ H].
  destruct H as [H _]; [vm_compute; discriminate|exact H].
Defined.

(** ** The list of sockets *)

Lemma subscribers_app (cs1 cs2 : list call) :
  subscribers (cs1 ++ cs2) = subscribers cs1 ++ subscribers cs2.
Proof.
  induction cs1 as [|[ws|k p] cs1 IH]; simpl; trivial. now rewrite IH.
Qed.

Lemma sorted_perm_eq (l1 l2 : list socket) :
  Sorted Z.le l1 -> Sorted Z.le l2 -> Permutation l1 l2 -> l1 = l2.
Proof.
  intros H1 H2.
  apply Sorted_StronglySorted in H1; [|intros x y z; lia].
  apply Sorted_StronglySorted in H2; [|intros x y z; lia].
  revert l2 H2. induction H1 as [|a l1 H1 IH Ha]; intros l2 H2 Hp.
  - apply Permutation_nil in Hp. now subst.
  - destruct H2 as [|b l2 H2 Hb].
    + apply Permutation_sym, Permutation_nil in Hp. discriminate.
    + rewrite Forall_forall in Ha, Hb.
      assert (Hab : a = b).
      { assert (Ia : In a (b :: l2)).
        { apply (Permutation_in a Hp). now left. }
        assert (Ib : In b (a :: l1)).
        { apply (Permutation_in b (Permutation_sym Hp)). now left. }
        destruct Ia as [Ia|Ia]; [now symmetry|].
        destruct Ib as [Ib|Ib]; [assumption|].
        apply Ha in Ib. apply Hb in Ia. lia. }
      subst b. f_equal. apply IH; [assumption|].
      now apply Permutation_cons_inv in Hp.
Qed.

(** X4 (the sockets are the subscribers).  Whatever is subscribed and
    published, the list of sockets holds the sockets it held before and the
    sockets subscribed since, each as often as it was subscribed, and
    nothing else; it is sorted as soon as one socket was subscribed or the
    list was sorted before.  Publishing never changes it. *)
Theorem X4_sockets_hold_subscribers (cs : list call) (r0 : Room) :
  Permutation (sockets (run cs r0)) (subscribers cs ++ sockets r0) /\
  (subscribers cs <> [] \/ Sorted Z.le (sockets r0) ->
   Sorted Z.le (sockets (run cs r0))) /\
  (subscribers cs = [] -> sockets (run cs r0) = sockets r0).
Proof.
  induction cs as [|c cs IH] using rev_ind.
  - simpl. split; [reflexivity|]. split; [|reflexivity].
    intros [H|H]; [contradiction|assumption].
  - destruct IH as (Hp & Hs & He).
    rewrite run_snoc, subscribers_app. destruct c as [ws|k p]; simpl.
    + split; [|split].
      * rewrite <- sort_perm, Hp.
        rewrite <- !app_assoc. apply Permutation_app_head.
        simpl. apply Permutation_sym, Permutation_cons_append.
      * intros _. apply sort_sorted.
      * intros E. apply app_eq_nil in E. destruct E as [_ E]. discriminate.
    + rewrite app_nil_r. split; [assumption|]. split; assumption.
Qed.

Lemma sort_twice_perm (a b : socket) (l : list socket) :
  Permutation (sort (sort (l ++ [b]) ++ [a])) (a :: b :: l).
Proof.
  apply Permutation_sym.
  apply Permutation_trans with (2 := sort_perm _).
  apply Permutation_trans with (2 := Permutation_cons_append _ a).
  apply perm_skip.
  apply Permutation_trans with (2 := sort_perm _).
  apply Permutation_cons_append.
Qed.

(** X5 (the order of subscription does not matter).  Subscribing two sockets
    in either order gives the same room. *)
Theorem X5_addSubscriber_commutes (a b : socket) (r : Room) :
  addSubscriber a (addSubscriber b r) = addSubscriber b (addSubscriber a r).
Proof.
  unfold addSubscriber.
  cbn [sockets uniqueSenders sharedMessage gotPubsThisIteration batched].
  f_equal. apply sorted_perm_eq; try apply sort_sorted.
  apply Permutation_trans with (1 := sort_twice_perm a b (sockets r)).
  apply Permutation_trans with (1 := perm_swap b a (sockets r)).
  apply Permutation_sym, sort_twice_perm.
Qed.

(** ** The reconstruction on gaps in order *)

Lemma keep_from_subseq (R : list Gap.t) (s : bytes) (i : Z) :
  subseq (keep_from i R s) s.
Proof.
  revert i. induction s as [|b s IH]; intros i; simpl; [constructor|].
  destruct (covered i R); now constructor.
Qed.

Lemma keep_from_size (buffer : bytes) (R : list Gap.t) (lo : Z) :
  0 <= lo -> ordered_from lo R (size buffer) ->
  size (keep_from lo R (skipn (Z.to_nat lo) buffer))
  = size buffer - lo - removed R.
Proof.
  revert lo. induction R as [|g R IH]; intros lo H0 H.
  - simpl in H. rewrite keep_from_all by reflexivity.
    unfold size in *. rewrite length_skipn. simpl. lia.
  - rewrite keep_from_step by assumption.
    destruct H as (H1 & H2 & H3).
    pose proof (ordered_from_bounds _ _ _ H3) as He.
    rewrite size_app, size_slice by in_range.
    rewrite IH by (trivial; in_range). simpl. unfold gap_end. lia.
Qed.

(** X6 (what the reconstruction keeps).  On a buffer that fits an [int] and
    gaps in order within it, the message of the sender is the buffer with
    some bytes left out, in the order of the buffer, and it is shorter than
    the buffer by the total length of the gaps. *)
Theorem X6_reconstruct_keeps_order (buffer : bytes) (R : list Gap.t) :
  size buffer <= INT_MAX -> R <> [] -> ordered_from 0 R (size buffer) ->
  exists msg,
    reconstruct buffer R = Ok msg /\
    subseq msg buffer /\
    size msg = size buffer - removed R.
Proof.
  intros Hs Hne Hord. exists (remove_ranges buffer R).
  split; [now apply reconstruct_removes|]. split.
  - apply keep_from_subseq.
  - unfold remove_ranges.
    pose proof (keep_from_size buffer R 0 (Z.le_refl 0) Hord) as H.
    simpl in H. rewrite H. lia.
Qed.

Lemma X6_reconstruct_keeps_order_witness :
  exists msg,
    reconstruct (B "helloworld") [Gap.make 0 2; Gap.make 5 3] = Ok msg /\
    subseq msg (B "helloworld") /\ size msg = 5.
Proof.
  destruct (X6_reconstruct_keeps_order (B "helloworld")
              [Gap.make 0 2; Gap.make 5 3]) as (msg & H1 & H2 & H3).
  - vm_compute. discriminate.
  - discriminate.
  - vm_compute. repeat split; discriminate.
  - exists msg. split; [exact H1|]. split; [exact H2|exact H3].
Defined.

Lemma gap_loop_past_end (buffer : bytes) (hi : Z) (rest : list Gap.t)
    (lastStop : Z) (msg : bytes) :
  hi <= INT_MAX -> 0 <= lastStop -> ordered_from lastStop rest hi ->
  size buffer < last_stop lastStop rest ->
  gap_loop buffer rest lastStop msg = Fail OutOfRange.
Proof.
  intros Hhi. revert lastStop msg.
  induction rest as [|g rest IH]; intros lastStop msg H0 H Hp; simpl in *.
  - unfold substr. rewrite to_size_t_id by lia.
    destruct (Z.ltb_spec (size buffer) lastStop); [reflexivity|lia].
  - destruct H as (H1 & H2 & H3).
    pose proof (ordered_from_bounds _ _ _ H3) as He.
    unfold substr at 1. rewrite to_size_t_id by in_range.
    destruct (Z.ltb_spec (size buffer) lastStop); [reflexivity|]. simpl.
    fold (gap_end g). rewrite (to_int_id (gap_end g)) by in_range.
    apply IH; trivial. in_range.
Qed.

(** X7 (gaps past the end of the buffer).  When gaps in order, with offsets
    that fit an [int], stop past the end of the buffer, the reconstruction
    does not clamp them: it ends on the [std::out_of_range] of [substr]. *)
Theorem X7_reconstruct_past_end (buffer : bytes) (R : list Gap.t) (hi : Z) :
  hi <= INT_MAX -> R <> [] -> ordered_from 0 R hi ->
  size buffer < last_stop 0 R ->
  reconstruct buffer R = Fail OutOfRange.
Proof.
  intros Hhi Hne Hord Hp. destruct R as [|g R]; [contradiction|].
  destruct Hord as (H1 & H2 & H3).
  pose proof (ordered_from_bounds _ _ _ H3) as He.
  pose proof (size_nonneg buffer) as Hb.
  unfold reconstruct. simpl.
  unfold substr at 1.
  destruct (Z.ltb_spec (size buffer) 0); [lia|]. simpl.
  fold (gap_end g). rewrite (to_int_id (gap_end g)) by in_range.
  apply (gap_loop_past_end buffer hi); trivial. in_range.
Qed.

Lemma X7_reconstruct_past_end_witness :
  reconstruct (B "abc") [Gap.make 1 5] = Fail OutOfRange.
Proof.
  apply (X7_reconstruct_past_end (B "abc") [Gap.make 1 5] 6).
  - vm_compute. discriminate.
  - discriminate.
  - vm_compute. repeat split; discriminate.
  - vm_compute. reflexivity.
Defined.

(** ** The index of a window *)

(** X8 (one entry per sender).  In a window opened on a room with nothing
    batched, the keys of the index are the senders of the window, each
    once and in increasing order, so that a broadcast that returns has
    computed one unique message per sender. *)
Theorem X8_index_keys_are_senders (r0 : Room) (cs : list call) :
  window_start r0 ->
  let m := uniqueSenders (run cs r0) in
  StronglySorted Z.lt (keys m) /\ NoDup (keys m) /\
  (forall s, In s (keys m) <-> In s (publishers cs)) /\
  (forall um, uniqueMessages (sharedMessage (run cs r0)) m = Ok um ->
     map fst um = keys m).
Proof.
  intros Hw m. subst m.
  pose proof (window_keys_sorted r0 Hw cs) as Hs.
  split; [assumption|]. split; [|split].
  - clear - Hs. induction Hs as [|k l Hs IH Hk]; constructor; [|assumption].
    rewrite Forall_forall in Hk. intros Hin. apply Hk in Hin. lia.
  - intros s. now apply window_keys.
  - intros um. apply uniqueMessages_keys.
Qed.

Lemma X8_index_keys_are_senders_witness :
  keys (uniqueSenders scenario) = [1; 2] /\ NoDup (keys (uniqueSenders scenario)).
Proof.
  split; [reflexivity|].
  apply (X8_index_keys_are_senders defaultRoom scenario_calls).
  split; reflexivity.
Defined.

(** ** The loop of [main]: nothing received is lost *)

Lemma poll_run (ios : list io_event) (r : Room) :
  fst (poll ios r) = run (map call_of ios) r.
Proof.
  revert r. induction ios as [|e ios IH]; intros r; [reflexivity|].
  simpl. destruct e as [ws|ws p]; simpl.
  - specialize (IH (addSubscriber ws r)).
    destruct (poll ios (addSubscriber ws r)). exact IH.
  - specialize (IH (publish ws p r)).
    destruct (poll ios (publish ws p r)). exact IH.
Qed.

Lemma prepared_app (a1 a2 : list action) :
  prepared (a1 ++ a2) = prepared a1 ++ prepared a2.
Proof.
  induction a1 as [|a a1 IH]; [reflexivity|].
  destruct a; simpl; rewrite IH; trivial. now rewrite app_assoc.
Qed.

Lemma prepared_poll (ios : list io_event) (r : Room) :
  prepared (snd (poll ios r)) = [].
Proof.
  revert r. induction ios as [|e ios IH]; intros r; [reflexivity|].
  simpl. destruct e as [ws|ws p]; simpl.
  - specialize (IH (addSubscriber ws r)).
    destruct (poll ios (addSubscriber ws r)). exact IH.
  - specialize (IH (publish ws p r)).
    destruct (poll ios (publish ws p r)). exact IH.
Qed.

Lemma prepared_walk (p : bytes) (ahead : list (socket * bytes))
    (socks : list socket) :
  prepared (walk p ahead socks) = [].
Proof.
  revert ahead. induction socks as [|s socks IH]; intros ahead; [reflexivity|].
  simpl. destruct ahead as [|[h msg] ahead']; simpl; [apply IH|].
  destruct (h =? s); simpl; [|apply IH].
  destruct (size msg =? 0); simpl; apply IH.
Qed.

Lemma prepare_cb_batch (r : Room) :
  same_batch (fst (prepare_cb r)) r /\
  batched (fst (prepare_cb r)) = batched r /\
  prepared (snd (prepare_cb r)) = [].
Proof.
  unfold prepare_cb, same_batch. destruct (batched r =? 0); simpl; auto.
Qed.

Lemma check_cb_prepared (r r' : Room) (evs : list action) :
  check_cb r = Ok (r', evs) ->
  sharedMessage r = prepared evs ++ sharedMessage r'.
Proof.
  unfold check_cb.
  destruct (negb (batched r =? 0) && negb (gotPubsThisIteration r)).
  - intros H. apply broadcast_inv in H. destruct H as (um & _ & -> & ->).
    simpl. rewrite prepared_app, prepared_walk. simpl.
    now rewrite !app_nil_r.
  - intros [= <- <-]. reflexivity.
Qed.

Lemma run_shared (cs : list call) (r : Room) :
  sharedMessage (run cs r) = sharedMessage r ++ payloads cs.
Proof.
  induction cs as [|c cs IH] using rev_ind; [simpl; now rewrite app_nil_r|].
  rewrite run_snoc, payloads_app.
  destruct c as [ws|k p]; simpl; rewrite IH, <- ?app_assoc, ?app_nil_r; reflexivity.
Qed.

Lemma iteration_inv (ios : list io_event) (r r' : Room) (acts : list action) :
  iteration ios r = Ok (r', acts) ->
  exists evs,
    check_cb (run (map call_of ios) (fst (prepare_cb r))) = Ok (r', evs) /\
    acts = snd (prepare_cb r) ++ snd (poll ios (fst (prepare_cb r))) ++ evs.
Proof.
  unfold iteration. destruct (prepare_cb r) as [r1 a1] eqn:E1. simpl.
  pose proof (poll_run ios r1) as Hp.
  destruct (poll ios r1) as [r2 a2]. simpl in *. subst r2.
  destruct (check_cb (run (map call_of ios) r1)) as [[r3 a3]|f]; simpl;
    [|discriminate].
  intros [= <- <-]. eauto.
Qed.

Lemma iteration_prepared (ios : list io_event) (r r' : Room)
    (acts : list action) :
  iteration ios r = Ok (r', acts) ->
  sharedMessage r ++ payloads (map call_of ios)
  = prepared acts ++ sharedMessage r'.
Proof.
  intros H. apply iteration_inv in H. destruct H as (evs & Hc & ->).
  apply check_cb_prepared in Hc. rewrite run_shared in Hc.
  destruct (prepare_cb_batch r) as ((_ & Hs & _) & _ & Hp).
  rewrite Hs in Hc. rewrite !prepared_app, Hp, prepared_poll. exact Hc.
Qed.

Lemma hub_run_prepared (passes : list (list io_event)) (r r' : Room)
    (acts : list action) :
  hub_run passes r = Ok (r', acts) ->
  sharedMessage r ++ inbound passes = prepared acts ++ sharedMessage r'.
Proof.
  unfold inbound. revert r r' acts.
  induction passes as [|ios passes IH]; intros r r' acts H; simpl in *.
  - injection H as <- <-. now rewrite app_nil_r.
  - destruct (iteration ios r) as [[r1 a1]|f] eqn:E1; simpl in H; [|discriminate].
    destruct (hub_run passes r1) as [[r2 a2]|f] eqn:E2; simpl in H; [|discriminate].
    injection H as <- <-.
    apply iteration_prepared in E1. apply IH in E2.
    rewrite map_app, payloads_app, prepared_app.
    rewrite app_assoc, E1, <- app_assoc, E2, app_assoc. reflexivity.
Qed.

(** X9 (nothing received is lost).  Whenever the loop returns from a run of
    iterations, what it has handed to [prepareMessage], broadcast after
    broadcast, followed by what is still batched, is what was batched
    before followed by all the messages received, byte for byte and in the
    order of arrival. *)
Theorem X9_hub_run_conserves (passes : list (list io_event)) (r r' : Room)
    (acts : list action) :
  hub_run passes r = Ok (r', acts) ->
  sharedMessage r ++ inbound passes = prepared acts ++ sharedMessage r'.
Proof. apply hub_run_prepared. Qed.

Lemma two_messages_run :
  hub_run two_messages defaultRoom = Ok (two_messages_end, two_messages_actions).
Proof. vm_compute. reflexivity. Qed.

Lemma X9_hub_run_conserves_witness :
  B "helloworld"
  = prepared two_messages_actions ++ sharedMessage two_messages_end.
Proof.
  exact (X9_hub_run_conserves two_messages defaultRoom _ _ two_messages_run).
Defined.

(** ** The loop of [main]: no fault, and a quiet pass ends the window *)

Lemma same_batch_refl (r : Room) : same_batch r r.
Proof. repeat split. Qed.

Lemma same_batch_sym (r1 r2 : Room) : same_batch r1 r2 -> same_batch r2 r1.
Proof. intros (H1 & H2 & H3). repeat split; now symmetry. Qed.

Lemma same_batch_trans (r1 r2 r3 : Room) :
  same_batch r1 r2 -> same_batch r2 r3 -> same_batch r1 r3.
Proof.
  intros (H1 & H2 & H3) (K1 & K2 & K3).
  repeat split; etransitivity; eassumption.
Qed.

Lemma same_batch_run_call (r1 r2 : Room) (c : call) :
  same_batch r1 r2 -> same_batch (run_call r1 c) (run_call r2 c).
Proof.
  intros (H1 & H2 & H3). destruct c as [ws|k p]; simpl; unfold same_batch; simpl.
  - now rewrite H1, H2, H3.
  - now rewrite H1, H2, H3.
Qed.

Lemma same_batch_run (cs : list call) (r1 r2 : Room) :
  same_batch r1 r2 -> same_batch (run cs r1) (run cs r2).
Proof.
  intros H. induction cs as [|c cs IH] using rev_ind; [assumption|].
  rewrite !run_snoc. now apply same_batch_run_call.
Qed.

Lemma same_batch_broadcast (r1 r2 r1' : Room) (evs : list action) :
  same_batch r1 r2 -> broadcast r1 = Ok (r1', evs) ->
  broadcast r2 = Ok (cleared r2, evs).
Proof.
  intros (H1 & H2 & H3) H. apply broadcast_inv in H.
  destruct H as (um & Hum & _ & ->).
  rewrite H1, H2 in Hum. unfold broadcast. rewrite Hum. simpl.
  now rewrite send_loop_walk, H2, H3.
Qed.

Lemma same_batch_due (r1 r2 : Room) (s : socket) :
  same_batch r1 r2 -> due r1 s = due r2 s.
Proof. intros (H1 & H2 & H3). unfold due. now rewrite H1, H2. Qed.

Lemma run_app (cs1 cs2 : list call) (r : Room) :
  run (cs1 ++ cs2) r = run cs2 (run cs1 r).
Proof. unfold run. apply fold_left_app. Qed.

Lemma in_window_default : in_window defaultRoom.
Proof.
  exists defaultRoom, []. split; [split; reflexivity|].
  split; [constructor|apply same_batch_refl].
Qed.

Lemma in_window_run (cs : list call) (r : Room) :
  in_window r -> in_window (run cs r).
Proof.
  intros (r0 & cs0 & Hw & Hs & Hb). exists r0, (cs0 ++ cs).
  split; [assumption|]. split; [assumption|].
  rewrite run_app. now apply same_batch_run.
Qed.

Lemma in_window_same (r1 r2 : Room) :
  same_batch r1 r2 -> in_window r2 -> in_window r1.
Proof.
  intros H (r0 & cs0 & Hw & Hs & Hb). exists r0, cs0.
  split; [assumption|]. split; [assumption|].
  now apply same_batch_trans with r2.
Qed.

Lemma in_window_sorted (r : Room) : in_window r -> Sorted Z.le (sockets r).
Proof.
  intros (r0 & cs0 & Hw & Hs & (_ & _ & ->)). now apply run_sockets_sorted.
Qed.

Lemma in_window_cleared (r : Room) : in_window r -> in_window (cleared r).
Proof.
  intros H. exists (cleared r), []. split; [split; reflexivity|].
  split; [exact (in_window_sorted r H)|apply same_batch_refl].
Qed.

Lemma in_window_broadcast (r : Room) :
  in_window r -> size (sharedMessage r) <= INT_MAX ->
  exists evs, broadcast r = Ok (cleared r, evs).
Proof.
  intros (r0 & cs0 & Hw & Hs & Hb) Hfit.
  assert (Hfit0 : size (payloads cs0) <= INT_MAX).
  { destruct Hb as (_ & Hsh & _). rewrite Hsh in Hfit.
    now rewrite (window_shared r0 Hw cs0) in Hfit. }
  destruct (window_broadcast r0 Hw cs0 Hfit0) as [evs E].
  exists evs. apply same_batch_sym in Hb.
  now apply (same_batch_broadcast _ _ _ _ Hb E).
Qed.

Lemma in_window_check (r r' : Room) (evs : list action) :
  in_window r -> check_cb r = Ok (r', evs) -> in_window r'.
Proof.
  intros Hi. unfold check_cb.
  destruct (negb (batched r =? 0) && negb (gotPubsThisIteration r)).
  - intros H. apply broadcast_inv in H. destruct H as (_ & _ & -> & _).
    now apply in_window_cleared.
  - now intros [= <- _].
Qed.

Lemma in_window_check_returns (r : Room) :
  in_window r -> size (sharedMessage r) <= INT_MAX ->
  exists r' evs, check_cb r = Ok (r', evs).
Proof.
  intros Hi Hfit. unfold check_cb.
  destruct (negb (batched r =? 0) && negb (gotPubsThisIteration r)).
  - destruct (in_window_broadcast r Hi Hfit) as [evs E]. eauto.
  - eauto.
Qed.

Lemma in_window_at_check (ios : list io_event) (r : Room) :
  in_window r -> in_window (run (map call_of ios) (fst (prepare_cb r))).
Proof.
  intros Hi. apply in_window_run.
  apply in_window_same with r; [|assumption]. apply prepare_cb_batch.
Qed.

Lemma iteration_returns (ios : list io_event) (r : Room) :
  in_window r ->
  size (sharedMessage r) + size (payloads (map call_of ios)) <= INT_MAX ->
  exists r' acts, iteration ios r = Ok (r', acts) /\ in_window r'.
Proof.
  intros Hi Hfit.
  pose proof (in_window_at_check ios r Hi) as Hi2.
  destruct (in_window_check_returns _ Hi2) as (r' & evs & E).
  { rewrite run_shared, size_app.
    destruct (prepare_cb_batch r) as ((_ & -> & _) & _). exact Hfit. }
  exists r'. unfold iteration.
  destruct (prepare_cb r) as [r1 a1]. simpl in *.
  pose proof (poll_run ios r1) as Hp.
  destruct (poll ios r1) as [r2 a2]. simpl in Hp. subst r2.
  rewrite E. simpl. eexists. split; [reflexivity|].
  now apply (in_window_check _ _ _ Hi2 E).
Qed.

Lemma hub_run_returns (passes : list (list io_event)) (r : Room) :
  in_window r ->
  size (sharedMessage r) + size (inbound passes) <= INT_MAX ->
  exists r' acts, hub_run passes r = Ok (r', acts) /\ in_window r'.
Proof.
  unfold inbound. revert r.
  induction passes as [|ios passes IH]; intros r Hi Hfit; simpl in *.
  - eauto.
  - rewrite map_app, payloads_app, size_app in Hfit.
    pose proof (size_nonneg (payloads (map call_of (List.concat passes)))).
    destruct (iteration_returns ios r Hi) as (r1 & a1 & E1 & Hi1); [lia|].
    rewrite E1. simpl.
    pose proof (iteration_prepared _ _ _ _ E1) as Hc.
    apply (f_equal size) in Hc. rewrite !size_app in Hc.
    pose proof (size_nonneg (prepared a1)).
    destruct (IH r1 Hi1) as (r2 & a2 & E2 & Hi2); [lia|].
    rewrite E2. simpl. eauto.
Qed.

(** X10 (the loop does not fault).  From the default room, whatever the
    sockets that connect and send, even a socket that never connected, the
    loop gets through every iteration without fault as long as the
    messages received fit an [int] together; and then everything received
    has been prepared for a broadcast or is still batched. *)
Theorem X10_hub_run_returns (passes : list (list io_event)) :
  size (inbound passes) <= INT_MAX ->
  exists r' acts,
    hub_run passes defaultRoom = Ok (r', acts) /\
    inbound passes = prepared acts ++ sharedMessage r'.
Proof.
  intros Hfit.
  destruct (hub_run_returns passes defaultRoom in_window_default)
    as (r' & acts & E & _); [simpl; lia|].
  exists r', acts. split; [exact E|].
  now apply hub_run_prepared in E.
Qed.

Lemma X10_hub_run_returns_witness :
  exists r' acts, hub_run two_messages defaultRoom = Ok (r', acts).
Proof.
  destruct (X10_hub_run_returns two_messages) as (r' & acts & E & _).
  - vm_compute. discriminate.
  - eauto.
Defined.














(** ** The loop of [main]: every socket is served what it is due *)

Lemma at_main_window (connected : list socket) (r : Room) :
  at_main connected r -> in_hub_window connected r.
Proof.
  induction 1 as [|conn r ws _ IH Hws|conn r ws p _ IH Hws|conn r _ IH
                  |conn r r' evs _ IH Hc].
  - exists defaultRoom, []. split; [split; reflexivity|].
    split; [constructor|]. split; [apply same_batch_refl|].
    split; [intros s []|]. split; constructor.
  - destruct IH as (r0 & cs & Hw & Hs & Hb & Hp & Hperm & Hn).
    exists r0, (cs ++ [Subscribe ws]). split; [assumption|].
    split; [assumption|]. split; [|split; [|split]].
    + rewrite run_snoc. now apply (same_batch_run_call _ _ (Subscribe ws)).
    + intros s. rewrite publishers_app, app_nil_r. intros Hin. right. auto.
    + simpl. apply Permutation_sym.
      apply Permutation_trans with (2 := sort_perm _).
      apply Permutation_trans with (2 := Permutation_cons_append _ ws).
      now apply perm_skip, Permutation_sym.
    + now constructor.
  - destruct IH as (r0 & cs & Hw & Hs & Hb & Hp & Hperm & Hn).
    exists r0, (cs ++ [Publish ws p]). split; [assumption|].
    split; [assumption|]. split; [|split; [|split]]; trivial.
    + rewrite run_snoc. now apply (same_batch_run_call _ _ (Publish ws p)).
    + intros s. rewrite publishers_app, in_app_iff. simpl.
      intros [Hin|[<-|[]]]; auto.
  - destruct IH as (r0 & cs & Hw & Hs & Hb & Hp & Hperm & Hn).
    destruct (prepare_cb_batch r) as (Hb1 & _).
    exists r0, cs. split; [assumption|]. split; [assumption|].
    split; [now apply same_batch_trans with r|]. split; [assumption|].
    split; [|assumption]. destruct Hb1 as (_ & _ & ->). assumption.
  - unfold check_cb in Hc.
    destruct (negb (batched r =? 0) && negb (gotPubsThisIteration r)).
    + apply broadcast_inv in Hc. destruct Hc as (_ & _ & -> & _).
      destruct IH as (r0 & cs & Hw & Hs & Hb & Hp & Hperm & Hn).
      exists (cleared r), []. split; [split; reflexivity|]. split.
      * simpl. destruct Hb as (_ & _ & ->). now apply run_sockets_sorted.
      * split; [apply same_batch_refl|]. split; [intros s []|].
        split; assumption.
    + now injection Hc as <- _.
Qed.

Lemma hub_window_keys (connected : list socket) (r : Room) (k : socket) :
  in_hub_window connected r ->
  In k (keys (uniqueSenders r)) -> In k (sockets r).
Proof.
  intros (r0 & cs & Hw & Hs & Hb & Hp & Hperm & Hn) Hk.
  destruct Hb as (Hm & _ & _). rewrite Hm in Hk.
  apply (window_keys r0 Hw cs k) in Hk. apply Hp in Hk.
  apply (Permutation_in k (Permutation_sym Hperm) Hk).
Qed.

(** X12 (in [main], every socket is served what it is due).  In every room
    that the callbacks and the handlers of [main] can reach on a trace of
    the hub (a socket connects once, only a connected socket sends), with
    a shared message that fits an [int], a broadcast returns; it serves
    every connected socket what it is due, the prepared message for a
    socket that sent nothing in the window and for a sender the shared
    message without its own ranges (nothing at all when that is empty), and
    it sends to nobody else. *)
Theorem X12_main_serves_due (connected : list socket) (r : Room) :
  at_main connected r ->
  size (sharedMessage r) <= INT_MAX ->
  exists evs,
    broadcast r = Ok (cleared r, evs) /\
    (forall s, In s connected -> sends_to s evs = due r s) /\
    (forall x, ~ In x connected -> sends_to x evs = []).
Proof.
  intros Hm Hfit. pose proof (at_main_window _ _ Hm) as Hi.
  destruct Hi as (r0 & cs & Hw & Hs & Hb & Hp & Hperm & Hn).
  assert (Hfit0 : size (payloads cs) <= INT_MAX).
  { destruct Hb as (_ & Hsh & _). rewrite Hsh in Hfit.
    now rewrite (window_shared r0 Hw cs) in Hfit. }
  destruct (window_broadcast r0 Hw cs Hfit0) as [evs E].
  exists evs.
  pose proof (same_batch_broadcast _ _ _ _ (same_batch_sym _ _ Hb) E) as Er.
  split; [exact Er|].
  assert (Hsock : sockets (run cs r0) = sockets r) by (symmetry; apply Hb).
  split.
  - intros s Hin. rewrite (same_batch_due _ _ s Hb).
    apply (window_dispatch r0 Hw cs Hfit0 s Hs) with (r' := cleared (run cs r0));
      trivial.
    + rewrite Hsock. apply (Permutation_NoDup (Permutation_sym Hperm) Hn).
    + rewrite Hsock. apply (Permutation_in s (Permutation_sym Hperm) Hin).
    + right. intros k Hk _. rewrite Hsock.
      apply (Permutation_in k (Permutation_sym Hperm)). apply Hp.
      now apply (window_keys r0 Hw cs k).
  - intros x Hx. destruct (broadcast_sends _ _ _ x Er) as (um & _ & ->).
    apply walk_absent. intros Hin. apply Hx.
    apply (Permutation_in x Hperm Hin).
Qed.

Lemma poll_at_main (ios : list io_event) (connected : list socket) (r : Room) :
  at_main connected r -> hub_trace connected ios ->
  at_main (rev (subscribers (map call_of ios)) ++ connected)
    (run (map call_of ios) r).
Proof.
  revert connected r. induction ios as [|e ios IH]; intros conn r Hm Ht.
  - exact Hm.
  - destruct e as [ws|ws p]; simpl in Ht; destruct Ht as [Hws Ht].
    + simpl. rewrite <- app_assoc. simpl.
      apply (IH (ws :: conn) (addSubscriber ws r)); [|assumption].
      now apply (main_connection conn r ws).
    + simpl. apply (IH conn (publish ws p r)); [|assumption].
      now apply (main_message conn r ws p).
Qed.

Lemma hub_trace_app (l1 l2 : list io_event) (connected : list socket) :
  hub_trace connected (l1 ++ l2) ->
  hub_trace connected l1 /\
  hub_trace (rev (subscribers (map call_of l1)) ++ connected) l2.
Proof.
  revert connected. induction l1 as [|e l1 IH]; intros conn H; [now split|].
  destruct e as [ws|ws p]; simpl in *; destruct H as [Hws H];
    destruct (IH _ H) as [H1 H2].
  - rewrite <- app_assoc. simpl. auto.
  - auto.
Qed.

Lemma hub_run_at_main (passes : list (list io_event)) (connected : list socket)
    (r r' : Room) (acts : list action) :
  at_main connected r -> hub_trace connected (List.concat passes) ->
  hub_run passes r = Ok (r', acts) ->
  at_main (rev (subscribers (map call_of (List.concat passes))) ++ connected) r'.
Proof.
  revert connected r r' acts.
  induction passes as [|ios passes IH]; intros conn r r' acts Hm Ht H; simpl in *.
  - now injection H as <- _.
  - destruct (iteration ios r) as [[r1 a1]|f] eqn:E1; simpl in H; [|discriminate].
    destruct (hub_run passes r1) as [[r2 a2]|f] eqn:E2; simpl in H; [|discriminate].
    injection H as <- _.
    apply hub_trace_app in Ht. destruct Ht as [Ht1 Ht2].
    apply iteration_inv in E1. destruct E1 as (evs & Hc & _).
    rewrite map_app, subscribers_app, rev_app_distr, <- app_assoc.
    apply (IH _ r1 r2 a2); trivial.
    apply main_check with (2 := Hc).
    apply poll_at_main; [|assumption]. now apply main_prepare.
Qed.

(** X13 (in [main], the senders are subscribed).  On a trace of the hub,
    the room the loop is in after any number of iterations, and the room
    the check callback finds in the next one, hold the connected sockets
    and nothing else, sorted and each once, and every key of the index of
    unique senders is one of them: the cursor of the second loop of
    [broadcast] meets every unique message. *)
Theorem X13_main_senders_subscribed (passes : list (list io_event))
    (ios : list io_event) (r : Room) (acts : list action) :
  hub_trace [] (List.concat (passes ++ [ios])) ->
  hub_run passes defaultRoom = Ok (r, acts) ->
  let at_check := run (map call_of ios) (fst (prepare_cb r)) in
  let connected := subscribers (map call_of (List.concat (passes ++ [ios]))) in
  Permutation (sockets at_check) connected /\
  NoDup (sockets at_check) /\ Sorted Z.le (sockets at_check) /\
  (forall k, In k (keys (uniqueSenders at_check)) -> In k (sockets at_check)) /\
  at_main (rev connected) at_check.
Proof.
  intros Ht H at_check connected. subst at_check connected.
  rewrite concat_app in *. simpl in *. rewrite app_nil_r in *.
  apply hub_trace_app in Ht. destruct Ht as [Ht1 Ht2].
  pose proof (hub_run_at_main passes [] _ _ _ main_default Ht1 H) as Hm.
  apply main_prepare in Hm.
  pose proof (poll_at_main ios _ _ Hm Ht2) as Hc.
  rewrite app_nil_r in Hc.
  rewrite map_app, subscribers_app, rev_app_distr.
  pose proof (at_main_window _ _ Hc) as Hi.
  pose proof (fun k => hub_window_keys _ _ k Hi) as Hkeys.
  destruct Hi as (r0 & cs & Hw & Hs & Hb & Hp & Hperm & Hn).
  assert (Hq : Permutation (sockets (run (map call_of ios) (fst (prepare_cb r))))
                 (subscribers (map call_of (List.concat passes))
                  ++ subscribers (map call_of ios))).
  { apply Permutation_trans with (1 := Hperm).
    rewrite <- rev_app_distr. apply Permutation_sym, Permutation_rev. }
  split; [exact Hq|]. split; [|split; [|split]].
  - apply (Permutation_NoDup (Permutation_sym Hperm) Hn).
  - destruct Hb as (_ & _ & ->). now apply run_sockets_sorted.
  - intros k. apply Hkeys.
  - exact Hc.
Qed.

Lemma X13_main_senders_subscribed_witness : at_main [2; 1] at_third_check.
Proof.
  destruct (X13_main_senders_subscribed
              [[Connection 1; Connection 2]; [Message 1 (B "hello")]]
              [Message 2 (B "world")] _ _
              ltac:(simpl; intuition discriminate) eq_refl)
    as (_ & _ & _ & _ & H).
  exact H.
Defined.

Lemma at_main_third_check : at_main [2; 1] at_third_check.
Proof.
  apply (main_message [2; 1] _ 2 (B "world")); [|simpl; auto].
  apply main_prepare.
  apply (main_message [2; 1] _ 1 (B "hello")); [|simpl; auto].
  apply (main_connection [1] _ 2); [|simpl; intuition discriminate].
  apply (main_connection [] _ 1); [|simpl; tauto].
  apply main_default.
Qed.

Lemma X12_main_serves_due_witness :
  exists evs,
    broadcast at_third_check = Ok (cleared at_third_check, evs) /\
    sends_to 1 evs = [Send 1 (B "world")] /\
    sends_to 2 evs = [Send 2 (B "hello")].
Proof.
  destruct (X12_main_serves_due _ _ at_main_third_check) as (evs & E & Hdue & _).
  - vm_compute. discriminate.
  - exists evs. split; [exact E|]. split.
    + rewrite Hdue by (simpl; auto). reflexivity.
    + rewrite Hdue by (simpl; auto). reflexivity.
Defined.

(** ** The two programs of the repository *)

Lemma agree_weaken (n n' : Z) (g : Readme.globals) (r : Room) :
  agree n g r -> n <= n' -> agree n' g r.
Proof.
  intros (H1 & H2 & H3 & H4 & H5 & H6 & H7 & H8) Hn.
  repeat split; trivial; lia.
Qed.

Ltac zero_or_not x E Eb :=
  destruct (Z.eq_dec x 0) as [E|E];
  [pose proof (proj2 (Z.eqb_eq x 0) E) as Eb
  |pose proof (proj2 (Z.eqb_neq x 0) E) as Eb].

Lemma agree_prepare (n : Z) (g : Readme.globals) (r : Room) :
  agree n g r ->
  agree n (fst (Readme.prepare_cb g)) (fst (prepare_cb r)) /\
  snd (Readme.prepare_cb g) = snd (prepare_cb r).
Proof.
  intros (H1 & H2 & H3 & H4 & H5 & H6 & H7 & H8).
  unfold Readme.prepare_cb, prepare_cb. simpl. rewrite H4.
  zero_or_not (batched r) E Eb; rewrite Eb; simpl.
  - split; [|reflexivity]. unfold agree. simpl. rewrite Eb in H7 |- *.
    intuition lia.
  - split; [|reflexivity]. unfold agree. simpl. rewrite Eb in H7 |- *.
    intuition lia.
Qed.

Lemma agree_handle (n : Z) (g : Readme.globals) (r : Room) (e : io_event) :
  agree n g r ->
  n + Z.of_nat (List.length (messages [e])) <= INT_MAX ->
  agree (n + Z.of_nat (List.length (messages [e])))
    (fst (Readme.handle g e)) (fst (handle r e)) /\
  snd (Readme.handle g e) = snd (handle r e).
Proof.
  intros (H1 & H2 & H3 & H4 & H5 & H6 & H7 & H8) Hn.
  destruct e as [ws|ws p]; simpl in Hn |- *.
  - split; [|reflexivity]. unfold agree. simpl. rewrite H1. intuition lia.
  - split; [|reflexivity]. unfold agree. simpl.
    assert (Hent : (if negb (Readme.delaying g) then 0 else Readme.batched g)
                   = batched r).
    { rewrite H7, negb_involutive.
      zero_or_not (batched r) E Eb; rewrite Eb; [now symmetry|assumption]. }
    rewrite Hent, H2, H3.
    rewrite (to_int_id (batched r + 1)) by in_range.
    rewrite (to_int_id (Readme.ready_polls g + 1)) by in_range.
    assert (Hpos : (batched r + 1 =? 0) = false) by (apply Z.eqb_neq; lia).
    assert (Hrp : (Readme.ready_polls g + 1 =? 0) = false)
      by (apply Z.eqb_neq; lia).
    rewrite Hpos, Hrp. simpl.
    repeat split; trivial; try lia.
    now destruct (Readme.delaying g).
Qed.

Lemma agree_poll (ios : list io_event) (n : Z) (g : Readme.globals) (r : Room) :
  agree n g r ->
  n + Z.of_nat (List.length (messages ios)) <= INT_MAX ->
  agree (n + Z.of_nat (List.length (messages ios)))
    (fst (Readme.poll ios g)) (fst (poll ios r)) /\
  snd (Readme.poll ios g) = snd (poll ios r).
Proof.
  revert n g r. induction ios as [|e ios IH]; intros n g r Ha Hn.
  - simpl in *. rewrite Z.add_0_r. now split.
  - assert (Hlen : Z.of_nat (List.length (messages (e :: ios)))
                   = Z.of_nat (List.length (messages [e]))
                     + Z.of_nat (List.length (messages ios))).
    { unfold messages. destruct e; simpl map; simpl publishers;
        simpl List.length; rewrite ?Nat2Z.inj_succ; lia. }
    rewrite Hlen in *.
    destruct (agree_handle n g r e Ha) as [Ha1 Hs1]; [lia|].
    simpl. destruct (Readme.handle g e) as [g1 a1].
    destruct (handle r e) as [r1 b1]. simpl in Ha1, Hs1. subst b1.
    destruct (IH _ g1 r1 Ha1) as [Ha2 Hs2]; [lia|].
    destruct (Readme.poll ios g1) as [g2 a2].
    destruct (poll ios r1) as [r2 b2]. simpl in *. subst b2.
    rewrite Z.add_assoc. now split.
Qed.

Lemma agree_check (n : Z) (g : Readme.globals) (r : Room) :
  agree n g r -> agree_runs n (Readme.check_cb g) (check_cb r).
Proof.
  intros Ha. pose proof Ha as (H1 & H2 & H3 & H4 & H5 & H6 & H7 & H8).
  unfold Readme.check_cb, check_cb. rewrite H7.
  zero_or_not (batched r) E Eb; rewrite Eb; simpl.
  - now split.
  - rewrite (H8 E), negb_involutive.
    destruct (Readme.ready_polls g =? 0); simpl; [|now split].
    unfold Readme.broadcast, broadcast. rewrite H1, H2, H3.
    destruct (uniqueMessages (sharedMessage r) (uniqueSenders r)) as [um|f];
      simpl; [|reflexivity].
    split; [reflexivity|]. unfold agree. simpl. intuition lia.
Qed.

Lemma agree_iteration (ios : list io_event) (n : Z) (g : Readme.globals)
    (r : Room) :
  agree n g r ->
  n + Z.of_nat (List.length (messages ios)) <= INT_MAX ->
  agree_runs (n + Z.of_nat (List.length (messages ios)))
    (Readme.iteration ios g) (iteration ios r).
Proof.
  intros Ha Hn. unfold Readme.iteration, iteration.
  destruct (agree_prepare n g r Ha) as [Ha1 Hs1].
  destruct (Readme.prepare_cb g) as [g1 a1].
  destruct (prepare_cb r) as [r1 b1]. simpl in Ha1, Hs1. subst b1.
  destruct (agree_poll ios n g1 r1 Ha1 Hn) as [Ha2 Hs2].
  destruct (Readme.poll ios g1) as [g2 a2].
  destruct (poll ios r1) as [r2 b2]. simpl in Ha2, Hs2. subst b2.
  pose proof (agree_check _ g2 r2 Ha2) as Hc. unfold agree_runs in Hc.
  destruct (Readme.check_cb g2) as [[g3 a3]|f];
    destruct (check_cb r2) as [[r3 b3]|f']; simpl; try contradiction.
  - destruct Hc as [-> Ha3]. now split.
  - assumption.
Qed.

Lemma agree_hub_run (passes : list (list io_event)) (n : Z)
    (g : Readme.globals) (r : Room) :
  agree n g r ->
  n + Z.of_nat (List.length (messages (List.concat passes))) <= INT_MAX ->
  agree_runs (n + Z.of_nat (List.length (messages (List.concat passes))))
    (Readme.hub_run passes g) (hub_run passes r).
Proof.
  revert n g r. induction passes as [|ios passes IH]; intros n g r Ha Hn.
  - simpl in *. rewrite Z.add_0_r. now split.
  - assert (Hlen : Z.of_nat (List.length (messages (List.concat (ios :: passes))))
                   = Z.of_nat (List.length (messages ios))
                     + Z.of_nat (List.length (messages (List.concat passes)))).
    { unfold messages. simpl. rewrite map_app, publishers_app, length_app. lia. }
    rewrite Hlen in *.
    pose proof (agree_iteration ios n g r Ha) as Hi.
    simpl. unfold agree_runs in Hi.
    destruct (Readme.iteration ios g) as [[g1 a1]|f];
      destruct (iteration ios r) as [[r1 b1]|f']; simpl;
      try (exfalso; apply Hi; lia).
    + destruct Hi as [-> Ha1]; [lia|].
      pose proof (IH _ g1 r1 Ha1) as Hr. unfold agree_runs in Hr.
      destruct (Readme.hub_run passes g1) as [[g2 a2]|f];
        destruct (hub_run passes r1) as [[r2 b2]|f']; simpl;
        try (exfalso; apply Hr; lia).
      * destruct Hr as [-> Ha2]; [lia|]. rewrite Z.add_assoc. now split.
      * apply Hr. lia.
    + apply Hi. lia.
Qed.

Lemma agree_initial : agree 0 Readme.initial defaultRoom.
Proof. unfold agree. simpl. intuition lia. Qed.

(** X14 (the two programs of the repository do the same).  On every run of
    iterations with at most [INT_MAX] messages, the earlier program (batch,
    [delaying] and [ready_polls] in global variables) and the later one
    (the room, with [gotPubsThisIteration]) end on the same fault or ask
    the same actions of the transport and of the loop, in the same order,
    and end with the same sockets and the same batch. *)
Theorem X14_readme_agrees_with_room (passes : list (list io_event)) :
  Z.of_nat (List.length (messages (List.concat passes))) <= INT_MAX ->
  actions_of (Readme.hub_run passes Readme.initial)
  = actions_of (hub_run passes defaultRoom) /\
  forall g a r a',
    Readme.hub_run passes Readme.initial = Ok (g, a) ->
    hub_run passes defaultRoom = Ok (r, a') ->
    Readme.sockets g = sockets r /\
    Readme.uniqueSenders g = uniqueSenders r /\
    Readme.sharedMessage g = sharedMessage r /\
    Readme.batched g = batched r.
Proof.
  intros Hn.
  pose proof (agree_hub_run passes 0 _ _ agree_initial) as H.
  unfold agree_runs in H.
  destruct (Readme.hub_run passes Readme.initial) as [[g a]|f];
    destruct (hub_run passes defaultRoom) as [[r a']|f']; simpl;
    try (exfalso; apply H; lia).
  - destruct H as [-> (H1 & H2 & H3 & H4 & _)]; [lia|].
    split; [reflexivity|]. intros g0 a0 r0 a0' [= <- <-] [= <- <-]. auto.
  - split; [|intros; discriminate]. f_equal. apply H. lia.
Qed.

Lemma X14_readme_agrees_with_room_witness :
  actions_of (Readme.hub_run two_messages Readme.initial)
  = Ok [Send 1 greeting; Send 2 greeting; TimerStart 1; TimerStart 1;
        PrepareMessage (B "helloworld"); Send 1 (B "world");
        Send 2 (B "hello"); FinalizeMessage].
Proof.
  destruct (X14_readme_agrees_with_room two_messages) as [H _].
  - vm_compute. discriminate.
  - rewrite H. reflexivity.
Defined.

(** ** The loop of [main]: the greeting comes first *)

Lemma poll_sends_absent (ios : list io_event) (r : Room) (ws : socket) :
  ~ In ws (subscribers (map call_of ios)) ->
  sends_to ws (snd (poll ios r)) = [].
Proof.
  revert r. induction ios as [|e ios IH]; intros r H; [reflexivity|].
  simpl. destruct e as [ws'|ws' p]; simpl in *.
  - specialize (IH (addSubscriber ws' r)).
    destruct (poll ios (addSubscriber ws' r)) as [r2 a2]. simpl in *.
    unfold sent_to. simpl.
    destruct (Z.eqb_spec ws' ws) as [->|Hne]; [tauto|]. apply IH. tauto.
  - specialize (IH (publish ws' p r)).
    destruct (poll ios (publish ws' p r)) as [r2 a2]. simpl in *. now apply IH.
Qed.

Lemma poll_sends_first (ios : list io_event) (r : Room) (ws : socket) :
  In ws (subscribers (map call_of ios)) ->
  exists rest, sends_to ws (snd (poll ios r)) = Send ws greeting :: rest.
Proof.
  revert r. induction ios as [|e ios IH]; intros r H; [contradiction|].
  simpl. destruct e as [ws'|ws' p]; simpl in *.
  - specialize (IH (addSubscriber ws' r)).
    destruct (poll ios (addSubscriber ws' r)) as [r2 a2]. simpl in *.
    unfold sent_to. simpl.
    destruct (Z.eqb_spec ws' ws) as [->|Hne]; [eauto|].
    apply IH. destruct H as [H|H]; [contradiction|assumption].
  - specialize (IH (publish ws' p r)).
    destruct (poll ios (publish ws' p r)) as [r2 a2]. simpl in *. now apply IH.
Qed.

Lemma check_cb_sends_absent (r r' : Room) (evs : list action) (ws : socket) :
  check_cb r = Ok (r', evs) -> ~ In ws (sockets r) -> sends_to ws evs = [].
Proof.
  unfold check_cb.
  destruct (negb (batched r =? 0) && negb (gotPubsThisIteration r)).
  - intros H Hws. destruct (broadcast_sends _ _ _ ws H) as (um & _ & ->).
    now apply walk_absent.
  - now intros [= _ <-].
Qed.

Lemma prepare_cb_sends (r : Room) (ws : socket) :
  sends_to ws (snd (prepare_cb r)) = [].
Proof. unfold prepare_cb. now destruct (batched r =? 0). Qed.

Lemma greeting_first (passes : list (list io_event)) (connected : list socket)
    (r r' : Room) (acts : list action) (ws : socket) :
  at_main connected r -> hub_trace connected (List.concat passes) ->
  hub_run passes r = Ok (r', acts) -> ~ In ws connected ->
  (In ws (subscribers (map call_of (List.concat passes))) ->
   exists rest, sends_to ws acts = Send ws greeting :: rest) /\
  (~ In ws (subscribers (map call_of (List.concat passes))) ->
   sends_to ws acts = []).
Proof.
  revert connected r r' acts.
  induction passes as [|ios passes IH]; intros conn r r' acts Hm Ht H Hws;
    simpl in *.
  - injection H as _ <-. split; [contradiction|reflexivity].
  - destruct (iteration ios r) as [[r1 a1]|f] eqn:E1; simpl in H; [|discriminate].
    destruct (hub_run passes r1) as [[r2 a2]|f] eqn:E2; simpl in H; [|discriminate].
    injection H as _ <-.
    apply hub_trace_app in Ht. destruct Ht as [Ht1 Ht2].
    apply iteration_inv in E1. destruct E1 as (evs & Hc & ->).
    pose proof (poll_at_main ios _ _ (main_prepare _ _ Hm) Ht1) as Hm1.
    pose proof (main_check _ _ _ _ Hm1 Hc) as Hm2.
    rewrite map_app, subscribers_app, !sends_to_app, prepare_cb_sends.
    simpl app.
    destruct (in_dec Z.eq_dec ws (subscribers (map call_of ios))) as [Hin|Hout].
    + split; [|intros Hn; exfalso; apply Hn, in_or_app; now left].
      intros _.
      destruct (poll_sends_first ios (fst (prepare_cb r)) ws Hin) as [rest ->].
      simpl. eauto.
    + rewrite (poll_sends_absent ios _ ws Hout). simpl app.
      assert (Hws1 : ~ In ws (rev (subscribers (map call_of ios)) ++ conn)).
      { intros Hin. apply in_app_or in Hin. destruct Hin as [Hin|Hin];
          [apply in_rev in Hin|]; contradiction. }
      assert (Hsock : ~ In ws (sockets (run (map call_of ios) (fst (prepare_cb r))))).
      { destruct (at_main_window _ _ Hm1)
          as (r0 & cs & _ & _ & _ & _ & Hperm & _).
        intros Hin. apply Hws1. apply (Permutation_in ws Hperm Hin). }
      rewrite (check_cb_sends_absent _ _ _ ws Hc Hsock). simpl app.
      destruct (IH _ _ _ _ Hm2 Ht2 E2 Hws1) as [H1 H2]. split.
      * intros Hin. apply in_app_or in Hin.
        destruct Hin as [Hin|Hin]; [contradiction|auto].
      * intros Hn. apply H2. intros Hin. apply Hn, in_or_app. now right.
Qed.

(** X15 (the greeting comes first).  On a trace of the hub, from the
    default room, the first thing the loop sends to a socket that connected
    is the greeting of the connection handler, before any broadcast reaches
    it; and nothing is ever sent to a socket that did not connect. *)
Theorem X15_greeting_first (passes : list (list io_event)) (r : Room)
    (acts : list action) (ws : socket) :
  hub_trace [] (List.concat passes) ->
  hub_run passes defaultRoom = Ok (r, acts) ->
  (In ws (subscribers (map call_of (List.concat passes))) ->
   exists rest, sends_to ws acts = Send ws greeting :: rest) /\
  (~ In ws (subscribers (map call_of (List.concat passes))) ->
   sends_to ws acts = []).
Proof.
  intros Ht H.
  apply (greeting_first passes [] defaultRoom r acts ws main_default Ht H).
  intros [].
Qed.

Lemma X15_greeting_first_witness :
  exists rest, sends_to 2 two_messages_actions = Send 2 greeting :: rest.
Proof.
  apply (X15_greeting_first two_messages two_messages_end two_messages_actions 2).
  - simpl. intuition discriminate.
  - exact two_messages_run.
  - simpl. auto.
Defined.

(** ** The benchmark client *)

Ltac bench_cases :=
  repeat match goal with
         | |- context [?a =? ?b] =>
             destruct (Z.eqb_spec a b); simpl in *; try lia
         end.

Lemma subCallback_more (g : Bench.globals) :
  1 < Bench.remainingSubs g <= INT_MAX ->
  Bench.subCallback g
  = ({| Bench.remainingSubs := Bench.remainingSubs g - 1;
        Bench.remainingPubs := Bench.remainingPubs g;
        Bench.pubs := Bench.pubs g;
        Bench.remainingMessages := Bench.remainingMessages g;
        Bench.numMessages := Bench.numMessages g;
        Bench.iterations := Bench.iterations g;
        Bench.next_context := Bench.next_context g + 1 |},
     [Bench.AsyncConnect (Bench.next_context g);
      Bench.CmdSubscribe (Bench.next_context g)]).
Proof.
  intros H. destruct g as [subs np l m N it nx]. simpl in H.
  unfold Bench.subCallback, Bench.nextConnection. simpl.
  rewrite (to_int_id (subs - 1)) by in_range. bench_cases. reflexivity.
Qed.

Lemma subCallback_last (g : Bench.globals) :
  Bench.remainingSubs g = 1 -> Bench.remainingPubs g <> 0 ->
  Bench.subCallback g
  = ({| Bench.remainingSubs := 0;
        Bench.remainingPubs := Bench.remainingPubs g;
        Bench.pubs := Bench.pubs g;
        Bench.remainingMessages := Bench.remainingMessages g;
        Bench.numMessages := Bench.numMessages g;
        Bench.iterations := Bench.iterations g;
        Bench.next_context := Bench.next_context g + 1 |},
     [Bench.AsyncConnect (Bench.next_context g);
      Bench.SetConnectCallback (Bench.next_context g)]).
Proof.
  intros H Hp. destruct g as [subs np l m N it nx]. simpl in H, Hp. subst subs.
  unfold Bench.subCallback, Bench.nextConnection. simpl.
  bench_cases. reflexivity.
Qed.

Lemma subCallback_count (g : Bench.globals) :
  Bench.steady g -> 1 < Bench.remainingMessages g <= INT_MAX ->
  Bench.subCallback g
  = ({| Bench.remainingMessages := Bench.remainingMessages g - 1;
        Bench.remainingSubs := 0;
        Bench.remainingPubs := 0;
        Bench.pubs := Bench.pubs g;
        Bench.numMessages := Bench.numMessages g;
        Bench.iterations := Bench.iterations g;
        Bench.next_context := Bench.next_context g |},
     []).
Proof.
  intros [Hs Hp] H. destruct g as [subs np l m N it nx]. simpl in *. subst.
  unfold Bench.subCallback. simpl.
  rewrite (to_int_id (m - 1)) by in_range. bench_cases. reflexivity.
Qed.

Lemma subCallback_round (g : Bench.globals) :
  Bench.steady g -> Bench.remainingMessages g = 1 ->
  Bench.subCallback g
  = ({| Bench.iterations := to_int (Bench.iterations g + 1);
        Bench.remainingMessages := Bench.numMessages g;
        Bench.remainingSubs := 0;
        Bench.remainingPubs := 0;
        Bench.pubs := Bench.pubs g;
        Bench.numMessages := Bench.numMessages g;
        Bench.next_context := Bench.next_context g |},
     Bench.PrintLatency :: map Bench.CmdPublish (Bench.pubs g)).
Proof.
  intros [Hs Hp] H. destruct g as [subs np l m N it nx]. simpl in *. subst.
  reflexivity.
Qed.

Lemma connectCallback_more (c : Bench.context) (g : Bench.globals) :
  Bench.remainingSubs g = 0 -> 1 < Bench.remainingPubs g <= INT_MAX ->
  Bench.connectCallback c g
  = ({| Bench.pubs := Bench.pubs g ++ [c];
        Bench.remainingPubs := Bench.remainingPubs g - 1;
        Bench.remainingSubs := 0;
        Bench.remainingMessages := Bench.remainingMessages g;
        Bench.numMessages := Bench.numMessages g;
        Bench.iterations := Bench.iterations g;
        Bench.next_context := Bench.next_context g + 1 |},
     [Bench.AsyncConnect (Bench.next_context g);
      Bench.SetConnectCallback (Bench.next_context g)]).
Proof.
  intros Hs H. destruct g as [subs np l m N it nx]. simpl in *. subst.
  unfold Bench.connectCallback, Bench.nextConnection. simpl.
  rewrite (to_int_id (np - 1)) by in_range. bench_cases. reflexivity.
Qed.

Lemma connectCallback_last (c : Bench.context) (g : Bench.globals) :
  Bench.remainingSubs g = 0 -> Bench.remainingPubs g = 1 ->
  Bench.connectCallback c g
  = ({| Bench.pubs := Bench.pubs g ++ [c];
        Bench.remainingPubs := 0;
        Bench.remainingSubs := 0;
        Bench.remainingMessages := Bench.remainingMessages g;
        Bench.numMessages := Bench.numMessages g;
        Bench.iterations := Bench.iterations g;
        Bench.next_context := Bench.next_context g |},
     Bench.SetStart :: map Bench.CmdPublish (Bench.pubs g ++ [c])).
Proof.
  intros Hs H. destruct g as [subs np l m N it nx]. simpl in *. subst.
  reflexivity.
Qed.

Lemma replies_step (n : nat) (g : Bench.globals) :
  Bench.replies (S n) g
  = (fst (Bench.replies n (fst (Bench.subCallback g))),
     snd (Bench.subCallback g)
       ++ snd (Bench.replies n (fst (Bench.subCallback g)))).
Proof.
  simpl. destruct (Bench.subCallback g) as [g1 e1]. simpl.
  now destruct (Bench.replies n g1).
Qed.

Lemma replies_last (n : nat) (g : Bench.globals) :
  Bench.replies (S n) g
  = (fst (Bench.subCallback (fst (Bench.replies n g))),
     snd (Bench.replies n g)
       ++ snd (Bench.subCallback (fst (Bench.replies n g)))).
Proof.
  revert g. induction n as [|n IH]; intros g.
  - rewrite replies_step. simpl. now rewrite app_nil_r.
  - rewrite replies_step, IH. rewrite (replies_step n g). simpl.
    now rewrite app_assoc.
Qed.

Lemma connects_step (c : Bench.context) (cs : list Bench.context)
    (g : Bench.globals) :
  Bench.connects (c :: cs) g
  = (fst (Bench.connects cs (fst (Bench.connectCallback c g))),
     snd (Bench.connectCallback c g)
       ++ snd (Bench.connects cs (fst (Bench.connectCallback c g)))).
Proof.
  simpl. destruct (Bench.connectCallback c g) as [g1 e1]. simpl.
  now destruct (Bench.connects cs g1).
Qed.

Lemma bench_subscribers (k : nat) (g : Bench.globals) :
  Bench.remainingSubs g = Z.of_nat (S k) -> Z.of_nat (S k) <= INT_MAX ->
  Bench.remainingPubs g <> 0 ->
  Bench.replies (S k) g
  = ({| Bench.remainingSubs := 0;
        Bench.remainingPubs := Bench.remainingPubs g;
        Bench.pubs := Bench.pubs g;
        Bench.remainingMessages := Bench.remainingMessages g;
        Bench.numMessages := Bench.numMessages g;
        Bench.iterations := Bench.iterations g;
        Bench.next_context := Bench.next_context g + Z.of_nat (S k) |},
     Bench.subscriber_wave (Bench.contexts_from (Bench.next_context g) k)
       ++ Bench.publisher_wave [Bench.next_context g + Z.of_nat k]).
Proof.
  revert g. induction k as [|k IH]; intros g Hs Hfit Hp.
  - rewrite replies_step, subCallback_last by assumption. simpl.
    rewrite Z.add_0_r. reflexivity.
  - rewrite replies_step, subCallback_more by lia.
    cbn [fst snd]. rewrite IH; cbn [Bench.remainingSubs Bench.remainingPubs
      Bench.pubs Bench.remainingMessages Bench.numMessages Bench.iterations
      Bench.next_context]; try assumption; try lia.
    cbn [fst snd Bench.contexts_from Bench.subscriber_wave flat_map app].
    replace (Bench.next_context g + 1 + Z.of_nat (S k))
      with (Bench.next_context g + Z.of_nat (S (S k))) by lia.
    replace (Bench.next_context g + 1 + Z.of_nat k)
      with (Bench.next_context g + Z.of_nat (S k)) by lia.
    reflexivity.
Qed.

Lemma bench_publishers (cs : list Bench.context) (c : Bench.context)
    (g : Bench.globals) :
  Bench.remainingSubs g = 0 ->
  Bench.remainingPubs g = Z.of_nat (S (List.length cs)) ->
  Z.of_nat (S (List.length cs)) <= INT_MAX ->
  Bench.connects (c :: cs) g
  = ({| Bench.pubs := Bench.pubs g ++ c :: cs;
        Bench.remainingPubs := 0;
        Bench.remainingSubs := 0;
        Bench.remainingMessages := Bench.remainingMessages g;
        Bench.numMessages := Bench.numMessages g;
        Bench.iterations := Bench.iterations g;
        Bench.next_context := Bench.next_context g + Z.of_nat (List.length cs) |},
     Bench.publisher_wave
       (Bench.contexts_from (Bench.next_context g) (List.length cs))
       ++ Bench.SetStart :: map Bench.CmdPublish (Bench.pubs g ++ c :: cs)).
Proof.
  revert c g. induction cs as [|c' cs IH]; intros c g Hs Hp Hfit.
  - rewrite connects_step, connectCallback_last by assumption. simpl.
    rewrite Z.add_0_r, app_nil_r. reflexivity.
  - rewrite connects_step, connectCallback_more by (trivial; simpl in *; lia).
    cbn [fst snd]. rewrite IH; cbn [Bench.remainingSubs Bench.remainingPubs
      Bench.pubs Bench.remainingMessages Bench.numMessages Bench.iterations
      Bench.next_context]; trivial; try (simpl in *; lia).
    cbn [fst snd List.length Bench.contexts_from Bench.publisher_wave flat_map app].
    rewrite <- !app_assoc. cbn [app].
    replace (Bench.next_context g + 1 + Z.of_nat (List.length cs))
      with (Bench.next_context g + Z.of_nat (S (List.length cs))) by lia.
    reflexivity.
Qed.

(** X16 (the set-up of the benchmark).  With [s] subscribers and [p]
    publishers still to come (both at least one), [s] replies on the
    subscriber connections and then the connection of [p] publishers leave
    both counters at zero; on the way the client has opened the remaining
    [s - 1] subscriber connections, each with its [SUBSCRIBE], then [p]
    publisher connections, and only then, after reading the clock, sent one
    [PUBLISH] on every publisher connection, in the order in which they
    connected. *)
Theorem X16_bench_setup (k : nat) (c : Bench.context)
    (cs : list Bench.context) (g : Bench.globals) :
  Bench.remainingSubs g = Z.of_nat (S k) -> Z.of_nat (S k) <= INT_MAX ->
  Bench.remainingPubs g = Z.of_nat (S (List.length cs)) ->
  Z.of_nat (S (List.length cs)) <= INT_MAX ->
  let after_subs := Bench.replies (S k) g in
  let after_pubs := Bench.connects (c :: cs) (fst after_subs) in
  Bench.steady (fst after_pubs) /\
  Bench.pubs (fst after_pubs) = Bench.pubs g ++ c :: cs /\
  Bench.remainingMessages (fst after_pubs) = Bench.remainingMessages g /\
  Bench.iterations (fst after_pubs) = Bench.iterations g /\
  snd after_subs ++ snd after_pubs
  = Bench.subscriber_wave (Bench.contexts_from (Bench.next_context g) k)
      ++ Bench.publisher_wave
           (Bench.contexts_from (Bench.next_context g + Z.of_nat k)
              (S (List.length cs)))
      ++ Bench.SetStart :: map Bench.CmdPublish (Bench.pubs g ++ c :: cs).
Proof.
  intros Hs Hfs Hp Hfp after_subs after_pubs. subst after_subs after_pubs.
  rewrite bench_subscribers by (trivial; lia). cbn [fst snd].
  rewrite bench_publishers; cbn [Bench.remainingSubs Bench.remainingPubs
    Bench.pubs Bench.remainingMessages Bench.numMessages Bench.iterations
    Bench.next_context]; trivial.
  cbn [fst snd]. split; [split; reflexivity|]. split; [reflexivity|].
  split; [reflexivity|]. split; [reflexivity|].
  rewrite <- !app_assoc. f_equal.
  cbn [Bench.contexts_from Bench.publisher_wave flat_map app].
  replace (Bench.next_context g + Z.of_nat (S k))
    with (Bench.next_context g + Z.of_nat k + 1) by lia.
  reflexivity.
Qed.

Lemma X16_bench_setup_witness :
  snd (Bench.replies 2 small_bench)
    ++ snd (Bench.connects [2; 3] (fst (Bench.replies 2 small_bench)))
  = [Bench.AsyncConnect 1; Bench.CmdSubscribe 1;
     Bench.AsyncConnect 2; Bench.SetConnectCallback 2;
     Bench.AsyncConnect 3; Bench.SetConnectCallback 3;
     Bench.SetStart; Bench.CmdPublish 2; Bench.CmdPublish 3].
Proof.
  destruct (X16_bench_setup 1 2 [3] small_bench) as (_ & _ & _ & _ & H).
  - reflexivity.
  - vm_compute. discriminate.
  - reflexivity.
  - vm_compute. discriminate.
  - etransitivity; [exact H|reflexivity].
Defined.

Lemma replies_counting (k : nat) (left : Z) (g : Bench.globals) :
  Bench.steady g ->
  Bench.remainingMessages g = Z.of_nat k + left -> 0 < left ->
  Z.of_nat k + left <= INT_MAX ->
  Bench.replies k g
  = ({| Bench.remainingMessages := left;
        Bench.remainingSubs := 0;
        Bench.remainingPubs := 0;
        Bench.pubs := Bench.pubs g;
        Bench.numMessages := Bench.numMessages g;
        Bench.iterations := Bench.iterations g;
        Bench.next_context := Bench.next_context g |},
     []).
Proof.
  revert g. induction k as [|k IH]; intros g Hst Hm Hl Hfit.
  - destruct Hst as [Hs Hp]. destruct g as [subs np l m N it nx].
    simpl in *. now subst.
  - rewrite replies_step, subCallback_count by (trivial; lia).
    cbn [fst snd]. rewrite IH; cbn [Bench.remainingSubs Bench.remainingPubs
      Bench.pubs Bench.remainingMessages Bench.numMessages Bench.iterations
      Bench.next_context]; trivial; try lia.
    split; reflexivity.
Qed.

(** X17 (the rounds of the benchmark).  Once every subscriber and every
    publisher is connected, the replies on the subscriber connections are
    only counted: while fewer than [remainingMessages] have come, the client
    does nothing; the reply that brings the count to zero makes it print the
    latency, count one more iteration, set [remainingMessages] back to
    [numMessages] and send one [PUBLISH] on every publisher connection. *)
Theorem X17_bench_round (k : nat) (g : Bench.globals) :
  Bench.steady g ->
  Bench.remainingMessages g = Z.of_nat (S k) -> Z.of_nat (S k) <= INT_MAX ->
  (forall j, (j <= k)%nat -> snd (Bench.replies j g) = []) /\
  Bench.replies (S k) g
  = ({| Bench.iterations := to_int (Bench.iterations g + 1);
        Bench.remainingMessages := Bench.numMessages g;
        Bench.remainingSubs := 0;
        Bench.remainingPubs := 0;
        Bench.pubs := Bench.pubs g;
        Bench.numMessages := Bench.numMessages g;
        Bench.next_context := Bench.next_context g |},
     Bench.PrintLatency :: map Bench.CmdPublish (Bench.pubs g)).
Proof.
  intros Hst Hm Hfit. split.
  - intros j Hj.
    rewrite (replies_counting j (Z.of_nat (S k) - Z.of_nat j) g); trivial; lia.
  - rewrite replies_last.
    rewrite (replies_counting k 1 g) by (trivial; lia). cbn [fst snd].
    rewrite subCallback_round by (try split; reflexivity).
    reflexivity.
Qed.

Lemma X17_bench_round_witness :
  snd (Bench.replies 3
         {| Bench.remainingSubs := 0; Bench.remainingPubs := 0;
            Bench.pubs := [7; 8]; Bench.remainingMessages := 3;
            Bench.numMessages := 3; Bench.iterations := 0;
            Bench.next_context := 9 |})
  = [Bench.PrintLatency; Bench.CmdPublish 7; Bench.CmdPublish 8].
Proof.
  destruct (X17_bench_round 2
              {| Bench.remainingSubs := 0; Bench.remainingPubs := 0;
                 Bench.pubs := [7; 8]; Bench.remainingMessages := 3;
                 Bench.numMessages := 3; Bench.iterations := 0;
                 Bench.next_context := 9 |}) as [_ H].
  - split; reflexivity.
  - reflexivity.
  - vm_compute. discriminate.
  - rewrite H. reflexivity.
Defined.

(** ** Sorting on every subscription *)

(** X18 (the full sort is a sorted insertion).  On a list of sockets that is
    sorted, as it is in every room reached from the default room, pushing
    the new socket at the end and sorting the whole list puts it where a
    sorted insertion would, before the first socket that is not smaller,
    and moves no other socket. *)
Theorem X18_addSubscriber_inserts (ws : socket) (r : Room) :
  Sorted Z.le (sockets r) ->
  sockets (addSubscriber ws r) = insert ws (sockets r) /\
  exists before behind,
    sockets r = before ++ behind /\
    sockets (addSubscriber ws r) = before ++ ws :: behind /\
    Forall (fun s => s < ws) before /\
    Forall (fun s => ws <= s) behind.
Proof.
  intros Hs.
  assert (E : sockets (addSubscriber ws r) = insert ws (sockets r)).
  { simpl. apply sorted_perm_eq.
    - apply sort_sorted.
    - now apply insert_sorted.
    - apply Permutation_trans with (2 := insert_perm ws (sockets r)).
      apply Permutation_sym.
      apply Permutation_trans with (2 := sort_perm _).
      apply Permutation_cons_append. }
  split; [exact E|]. rewrite E. clear E.
  apply Sorted_StronglySorted in Hs; [|intros x y z; lia].
  induction Hs as [|a l Hs IH Ha].
  - exists [], []. simpl. repeat split; constructor.
  - simpl. destruct (Z.leb_spec ws a) as [Hle|Hgt].
    + exists [], (a :: l). simpl. repeat split; [constructor|].
      constructor; [assumption|].
      apply Forall_impl with (2 := Ha). intros s Has. lia.
    + destruct IH as (before & behind & E1 & E2 & Hb & Hh).
      exists (a :: before), behind. simpl. rewrite E1 at 1. rewrite E2.
      repeat split; trivial. now constructor.
Qed.

Lemma X18_addSubscriber_inserts_witness :
  sockets (addSubscriber 2 (addSubscriber 3 (addSubscriber 1 defaultRoom)))
  = [1; 2; 3].
Proof.
  destruct (X18_addSubscriber_inserts 2
              (addSubscriber 3 (addSubscriber 1 defaultRoom))) as [H _].
  - simpl. repeat constructor; simpl; lia.
  - rewrite H. reflexivity.
Defined.

(** ** Gaps that are not in order *)

(** X19 (a gap that starts before the last one stopped).  The second of two
    gaps within the buffer starts before the first one stops: the length of
    the segment between them, negative as an [int], is a huge [size_t], so
    [substr] copies the buffer from the first stop to its end; the message
    is then the bytes before the first gap, everything behind the first
    gap, and once more everything behind the second. *)
Theorem X19_reconstruct_out_of_order (buffer : bytes) (g1 g2 : Gap.t) :
  size buffer <= INT_MAX ->
  0 <= Gap.start g1 -> 0 <= Gap.length g1 -> gap_end g1 <= size buffer ->
  0 <= Gap.start g2 < gap_end g1 ->
  0 <= Gap.length g2 -> gap_end g2 <= size buffer ->
  reconstruct buffer [g1; g2]
  = Ok (slice buffer 0 (Gap.start g1)
          ++ skipn (Z.to_nat (gap_end g1)) buffer
          ++ skipn (Z.to_nat (gap_end g2)) buffer).
Proof.
  intros Hfit H1 H2 H3 H4 H5 H6.
  unfold reconstruct. simpl.
  rewrite substr_first by in_range. simpl. fold (gap_end g1).
  rewrite (to_int_id (gap_end g1)) by in_range.
  rewrite (to_int_id (Gap.start g2 - gap_end g1)) by in_range.
  unfold substr at 1. rewrite (to_size_t_id (gap_end g1)) by in_range.
  destruct (Z.ltb_spec (size buffer) (gap_end g1)); [lia|].
  assert (Hmin : Z.min (to_size_t (Gap.start g2 - gap_end g1))
                   (size buffer - gap_end g1) = size buffer - gap_end g1).
  { apply Z.min_r. unfold to_size_t.
    rewrite <- (Z_mod_plus_full _ 1). rewrite Z.mod_small; in_range. }
  rewrite Hmin. simpl. fold (gap_end g2).
  rewrite (to_int_id (gap_end g2)) by in_range.
  rewrite substr_rest by in_range. simpl.
  rewrite slice_to_end by in_range.
  rewrite firstn_all2 by (rewrite length_skipn; unfold size in *; lia).
  now rewrite app_assoc.
Qed.

Lemma X19_reconstruct_out_of_order_witness :
  reconstruct (B "abcd") [Gap.make 2 1; Gap.make 0 1] = Ok (B "abdbcd").
Proof.
  etransitivity.
  - apply (X19_reconstruct_out_of_order (B "abcd") (Gap.make 2 1) (Gap.make 0 1));
      vm_compute; try discriminate; split; discriminate || reflexivity.
  - reflexivity.
Defined.
